(** * Py2c: the AST-to-JSON dumper [py2ast.py]

    A shallow embedding of [ast_to_dict] and of the script's entry point,
    together with the properties of the serialised document. *)

From Stdlib Require Import List String Ascii ZArith Bool Lia Arith.
From Stdlib Require Import DecimalString.
Import ListNotations.
Local Open Scope string_scope.

(** ** Python values *)

(** Objects without children.  A Python [str] is held as the string of its
    UTF-8 bytes; a [float] and a [complex] are held as the text [repr]
    gives for them, which identifies them. *)
Inductive atom : Type :=
| ANone
| ABool (b : bool)
| AInt (n : Z)
| AFloat (repr : string)
| AComplex (repr : string)
| AStr (s : string)
| ABytes (s : string)
| AEllipsis.

(** The values the serialiser can meet.  [VDict] is an insertion-ordered
    dictionary with string keys, the only kind the serialiser builds.
    [VAST] is an instance of a subclass of [ast.AST]: the class name, the
    class's [_fields] and [_attributes] tuples, and the attributes
    [getattr] finds on the instance. *)
#[local] Set Warnings "-register-all".
Inductive value : Type :=
| VAtom (a : atom)
| VTuple (items : list value)
| VList (items : list value)
| VDict (entries : list (string * value))
| VAST (cls : string) (_fields _attributes : list string)
       (attrs : list (string * value)).
#[local] Set Warnings "register-all".

Abbreviation VNone := (VAtom ANone).
Abbreviation VBool b := (VAtom (ABool b)).
Abbreviation VInt n := (VAtom (AInt n)).
Abbreviation VFloat r := (VAtom (AFloat r)).
Abbreviation VComplex r := (VAtom (AComplex r)).
Abbreviation VStr s := (VAtom (AStr s)).
Abbreviation VBytes s := (VAtom (ABytes s)).
Abbreviation VEllipsis := (VAtom AEllipsis).

(** Induction over values that reaches the items of tuples and lists and
    the values held in dictionaries and in instance attributes. *)
Section value_induction.
Variable P : value -> Prop.
Hypothesis Hatom : forall a, P (VAtom a).
Hypothesis Htuple : forall items, Forall P items -> P (VTuple items).
Hypothesis Hlist : forall items, Forall P items -> P (VList items).
Hypothesis Hdict :
  forall entries, Forall (fun kv => P (snd kv)) entries -> P (VDict entries).
Hypothesis Hast :
  forall cls fs ats attrs,
    Forall (fun kv => P (snd kv)) attrs -> P (VAST cls fs ats attrs).

Fixpoint value_ind' (v : value) : P v :=
  let fix items_ind (l : list value) : Forall P l :=
    match l with
    | [] => Forall_nil _
    | x :: rest => Forall_cons _ (value_ind' x) (items_ind rest)
    end in
  let fix entries_ind (l : list (string * value))
    : Forall (fun kv => P (snd kv)) l :=
    match l with
    | [] => Forall_nil _
    | (k, x) :: rest =>
        Forall_cons (P := fun kv => P (snd kv)) (k, x)
          (value_ind' x) (entries_ind rest)
    end in
  match v with
  | VAtom a => Hatom a
  | VTuple items => Htuple items (items_ind items)
  | VList items => Hlist items (items_ind items)
  | VDict entries => Hdict entries (entries_ind entries)
  | VAST cls fs ats attrs => Hast cls fs ats attrs (entries_ind attrs)
  end.
End value_induction.

(** ** Exceptions and results *)

(** The exceptions of the script and of its collaborators.
    [RecursionError] and [SystemError] belong to the serialiser on the
    heap: too many nested calls, and an address without an object. *)
Inductive exn : Type :=
| AttributeError (cls name : string)
| TypeError (type_name : string)
| IndexError
| OSError (path : string)
| UnicodeDecodeError
| SyntaxError
| RecursionError
| SystemError.

Inductive result (A : Type) : Type :=
| Ok (a : A)
| Raise (e : exn).
Arguments Ok {A} a.
Arguments Raise {A} e.

Definition bind {A B} (r : result A) (k : A -> result B) : result B :=
  match r with
  | Ok a => k a
  | Raise e => Raise e
  end.

Notation "x <- r ;; k" := (bind r (fun x => k))
  (at level 61, r at next level, right associativity).

Notation "' p <- r ;; k" := (bind r (fun x => match x with p => k end))
  (at level 61, p pattern, r at next level, right associativity).

(** ** Dictionaries and attribute access *)

(** [d[k] = v]: an existing key keeps its place and takes the new value, a
    new key goes to the end. *)
Fixpoint setitem {A} (d : list (string * A)) (k : string) (v : A)
  : list (string * A) :=
  match d with
  | [] => [(k, v)]
  | (k', v') :: d' =>
      if String.eqb k' k then (k', v) :: d' else (k', v') :: setitem d' k v
  end.

(** What [getattr(node, name)] finds, if anything. *)
Fixpoint lookup {A} (attrs : list (string * A)) (name : string) : option A :=
  match attrs with
  | [] => None
  | (k, v) :: rest => if String.eqb k name then Some v else lookup rest name
  end.

(** [getattr(node, name)]: raises when the attribute is missing. *)
Definition getattr (cls : string) (attrs : list (string * value))
  (name : string) : result value :=
  match lookup attrs name with
  | Some v => Ok v
  | None => Raise (AttributeError cls name)
  end.

(** [getattr(node, name, None)]. *)
Definition getattr_default (attrs : list (string * value)) (name : string)
  (default : value) : value :=
  match lookup attrs name with
  | Some v => v
  | None => default
  end.

(** ** The serialiser *)

Section loops.
Context {A B : Type}.

(** [[f(x) for x in xs]], where [f] may raise. *)
Definition comprehension (f : A -> result B) : list A -> result (list B) :=
  fix go (xs : list A) : result (list B) :=
    match xs with
    | [] => Ok []
    | x :: rest =>
        y <- f x ;;
        ys <- go rest ;;
        Ok (y :: ys)
    end.

(** [f(getattr(node, name))] where the attribute is found. *)
Definition getattr_then (f : A -> B)
  : list (string * A) -> string -> option B :=
  fix go (attrs : list (string * A)) (name : string) : option B :=
    match attrs with
    | [] => None
    | (k, v) :: rest => if String.eqb k name then Some (f v) else go rest name
    end.
End loops.

(** [for name in names: result[name] = get(name)], where [get] may raise. *)
Fixpoint store_each (get : string -> result value) (names : list string)
  (res : list (string * value)) : result (list (string * value)) :=
  match names with
  | [] => Ok res
  | name :: rest =>
      v <- get name ;;
      store_each get rest (setitem res name v)
  end.

(** [ast_to_dict(node)].  A node gives a dictionary that starts as
    [{'_type': node.__class__.__name__}] and is filled by the two loops,
    over [node._fields] with [getattr(node, field)] and over
    [node._attributes] with [getattr(node, attr, None)]; a list gives the
    list of its serialised items; anything else is returned as it is.
    [getattr_then ast_to_dict attrs name] is [ast_to_dict(getattr(node,
    name))] when the attribute is there; [ast_to_dict_node] below states
    the branch with [getattr] and the call apart. *)
Fixpoint ast_to_dict (node : value) : result value :=
  match node with
  | VAST cls _fields _attributes attrs =>
      let res := [("_type", VStr cls)] in
      res <- store_each
               (fun field =>
                  match getattr_then ast_to_dict attrs field with
                  | Some r => r
                  | None => Raise (AttributeError cls field)
                  end)
               _fields res ;;
      res <- store_each
               (fun attr =>
                  match getattr_then ast_to_dict attrs attr with
                  | Some r => r
                  | None => Ok VNone (* ast_to_dict(None) *)
                  end)
               _attributes res ;;
      Ok (VDict res)
  | VList items =>
      items' <- comprehension ast_to_dict items ;;
      Ok (VList items')
  | _ => Ok node
  end.

(** [isinstance(node, ast.AST)] and [isinstance(node, list)]. *)
Definition is_AST (v : value) : bool :=
  match v with VAST _ _ _ _ => true | _ => false end.

Definition is_list (v : value) : bool :=
  match v with VList _ => true | _ => false end.

(** ** Writing JSON: [json.dump(obj, fp, indent=2, ensure_ascii=False)]

    The script hands the document to the standard library's encoder.  With
    an indent the encoder is the generator of [json/encoder.py], which
    yields the text piece by piece; [json.dump] writes each piece to the
    stream as it comes, so what was yielded before an exception has been
    written. *)

(** The text a generator yielded, and the exception that ended it, if one
    did. *)
Definition gen : Type := string * option exn.

Definition yield (s : string) : gen := (s, None).

Definition gen_raise (e : exn) : gen := ("", Some e).

Definition gen_then (g1 g2 : gen) : gen :=
  match g1 with
  | (s1, None) => (s1 ++ fst g2, snd g2)
  | (s1, Some e) => (s1, Some e)
  end.

Infix "+++" := gen_then (at level 60, right associativity).

Definition newline : string := String "010"%char "".
Definition dquote : string := String "034"%char "".

Fixpoint spaces (n : nat) : string :=
  match n with
  | O => ""
  | S n' => String " "%char (spaces n')
  end.

Definition hex_digit (n : nat) : string :=
  String (nth n (list_ascii_of_string "0123456789abcdef") "0"%char) "".

(** [ESCAPE_DCT]: backslash, the double quote and the control characters
    are replaced, every other character stands for itself. *)
Definition escape_char (c : ascii) : string :=
  let n := nat_of_ascii c in
  if (n =? 92)%nat then "\\"
  else if (n =? 34)%nat then "\" ++ dquote
  else if (n =? 8)%nat then "\b"
  else if (n =? 12)%nat then "\f"
  else if (n =? 10)%nat then "\n"
  else if (n =? 13)%nat then "\r"
  else if (n =? 9)%nat then "\t"
  else if (n <? 32)%nat then "\u00" ++ hex_digit (n / 16) ++ hex_digit (n mod 16)
  else String c "".

Fixpoint escape (s : string) : string :=
  match s with
  | EmptyString => ""
  | String c rest => escape_char c ++ escape rest
  end.

(** [encode_basestring], the encoder of strings chosen by
    [ensure_ascii=False]. *)
Definition encode_basestring (s : string) : string :=
  dquote ++ escape s ++ dquote.

(** [int.__repr__]. *)
Definition intstr (n : Z) : string := NilZero.string_of_int (Z.to_int n).

(** [floatstr], on the text [float.__repr__] gives. *)
Definition floatstr (repr : string) : string :=
  if String.eqb repr "nan" then "NaN"
  else if String.eqb repr "inf" then "Infinity"
  else if String.eqb repr "-inf" then "-Infinity"
  else repr.

(** The loop over the items of a list: before the first item goes [buf],
    before each later one the separator. *)
Definition encode_items (encode : value -> gen) (separator : string)
  : string -> list value -> gen :=
  fix each (buf : string) (l : list value) : gen :=
    match l with
    | [] => yield ""
    | x :: rest => yield buf +++ encode x +++ each separator rest
    end.

(** The loop over the items of a dictionary. *)
Definition encode_entries (encode : value -> gen) (separator : string)
  : string -> list (string * value) -> gen :=
  fix each (buf : string) (l : list (string * value)) : gen :=
    match l with
    | [] => yield ""
    | (k, x) :: rest =>
        yield buf +++ yield (encode_basestring k) +++ yield ": "
        +++ encode x +++ each separator rest
    end.

Section encoder.
(** [indent], the number of spaces of one level. *)
Variable indent : nat.

Definition newline_indent (level : nat) : string :=
  newline ++ spaces (indent * level).

Definition item_separator (level : nat) : string :=
  "," ++ newline_indent level.

(** [_iterencode], [_iterencode_list] and [_iterencode_dict].  An object
    of a type the encoder does not know goes to [default], which raises
    [TypeError]. *)
Fixpoint iterencode (o : value) (level : nat) {struct o} : gen :=
  match o with
  | VAtom (AStr s) => yield (encode_basestring s)
  | VAtom ANone => yield "null"
  | VAtom (ABool true) => yield "true"
  | VAtom (ABool false) => yield "false"
  | VAtom (AInt n) => yield (intstr n)
  | VAtom (AFloat r) => yield (floatstr r)
  | VList items | VTuple items =>
      match items with
      | [] => yield "[]"
      | _ =>
          encode_items (fun x => iterencode x (S level))
            (item_separator (S level))
            ("[" ++ newline_indent (S level)) items
          +++ yield (newline_indent level)
          +++ yield "]"
      end
  | VDict entries =>
      match entries with
      | [] => yield "{}"
      | _ =>
          yield "{"
          +++ encode_entries (fun x => iterencode x (S level))
                (item_separator (S level))
                (newline_indent (S level)) entries
          +++ yield (newline_indent level)
          +++ yield "}"
      end
  | VAtom (ABytes _) => gen_raise (TypeError "bytes")
  | VAtom (AComplex _) => gen_raise (TypeError "complex")
  | VAtom AEllipsis => gen_raise (TypeError "ellipsis")
  | VAST cls _ _ _ => gen_raise (TypeError cls)
  end.
End encoder.

(** ** The script *)

(** What the process leaves behind: the text on the two streams, the
    exception the interpreter reported if one went uncaught, and the exit
    status. *)
Record outcome : Type := {
  stdout : string;
  stderr : string;
  uncaught : option exn;
  status : Z
}.

(** The collaborators of the script: [open(path, 'r', encoding=...)]
    followed by [read()], and
    [ast.parse(source, filename=..., mode=..., type_comments=...)]. *)
Record world : Type := {
  read_text : string -> string -> result string;
  ast_parse : string -> string -> string -> bool -> result value
}.

(** How a running script ends: it returns, an exception goes uncaught, or
    [SystemExit] ends it with a code. *)
Inductive ending (A : Type) : Type :=
| Returns (a : A)
| Raises (e : exn)
| Exits (code : Z).
Arguments Returns {A} a.
Arguments Raises {A} e.
Arguments Exits {A} code.

(** A running script: it writes to the two streams, standard output and
    standard error, and ends. *)
Definition io (A : Type) : Type :=
  string * string -> (string * string) * ending A.

Definition io_ret {A} (a : A) : io A := fun s => (s, Returns a).

Definition io_bind {A B} (m : io A) (k : A -> io B) : io B :=
  fun s =>
    match m s with
    | (s', Returns a) => k a s'
    | (s', Raises e) => (s', Raises e)
    | (s', Exits code) => (s', Exits code)
    end.

Notation "x <-- m ;; k" := (io_bind m (fun x => k))
  (at level 61, m at next level, right associativity).

Definition lift {A} (r : result A) : io A :=
  fun s =>
    match r with
    | Ok a => (s, Returns a)
    | Raise e => (s, Raises e)
    end.

(** [print(line, file=sys.stderr)]. *)
Definition print_stderr (line : string) : io unit :=
  fun s => ((fst s, snd s ++ line ++ newline), Returns tt).

(** [sys.exit(code)]. *)
Definition sys_exit (code : Z) : io unit := fun s => (s, Exits code).

(** [json.dump(obj, sys.stdout, indent=indent, ensure_ascii=False)]. *)
Definition json_dump (obj : value) (indent : nat) : io unit :=
  fun s =>
    let (text, e) := iterencode indent obj 0 in
    ((fst s ++ text, snd s),
     match e with
     | None => Returns tt
     | Some e => Raises e
     end).

(** [sys.argv[i]]. *)
Definition argv_at (argv : list string) (i : nat) : io string :=
  lift (match nth_error argv i with
        | Some a => Ok a
        | None => Raise IndexError
        end).

(** The body under [if __name__ == '__main__':]. *)
Definition script (w : world) (argv : list string) : io unit :=
  _ <-- (if negb (List.length argv =? 2)%nat then
           prog <-- argv_at argv 0 ;;
           _ <-- print_stderr
                   ("Usage: python " ++ prog ++ " <python_source_file>") ;;
           sys_exit 1
         else io_ret tt) ;;
  path <-- argv_at argv 1 ;;
  source <-- lift (read_text w path "utf-8") ;;
  tree <-- lift (ast_parse w source path "exec" true) ;;
  ast_dict <-- lift (ast_to_dict tree) ;;
  json_dump ast_dict 2.

(** The interpreter running the script: a script that returns gives
    status 0, [sys.exit] gives its code, an uncaught exception is reported
    and gives status 1. *)
Definition main (w : world) (argv : list string) : outcome :=
  match script w argv ("", "") with
  | ((out, err), Returns _) =>
      {| stdout := out; stderr := err; uncaught := None; status := 0 |}
  | ((out, err), Exits code) =>
      {| stdout := out; stderr := err; uncaught := None; status := code |}
  | ((out, err), Raises e) =>
      {| stdout := out; stderr := err; uncaught := Some e; status := 1 |}
  end.

(** ** Trees the serialiser accepts *)

(** Every field a class declares is present on every node the serialiser
    reaches: exactly the trees on which [ast_to_dict] returns. *)
Fixpoint fields_present (v : value) : bool :=
  match v with
  | VAST cls fs ats attrs =>
      forallb (fun field =>
                 match getattr_then fields_present attrs field with
                 | Some b => b
                 | None => false
                 end) fs
      && forallb (fun attr =>
                    match getattr_then fields_present attrs attr with
                    | Some b => b
                    | None => true
                    end) ats
  | VList items => forallb fields_present items
  | _ => true
  end.

(** [l] has no repeated name. *)
Fixpoint distinct (l : list string) : bool :=
  match l with
  | [] => true
  | x :: rest => negb (existsb (String.eqb x) rest) && distinct rest
  end.

(** On every node the serialiser reaches, the declared field and attribute
    names differ from each other and from the key [_type]. *)
Fixpoint names_distinct (v : value) : bool :=
  match v with
  | VAST cls fs ats attrs =>
      distinct ("_type" :: fs ++ ats)
      && forallb (fun name =>
                    match getattr_then names_distinct attrs name with
                    | Some b => b
                    | None => true
                    end) (fs ++ ats)
  | VList items => forallb names_distinct items
  | _ => true
  end.

(** Every value that goes from the tree into the document as it is is
    an atom, as in the trees the parser builds. *)
Fixpoint atoms_only (v : value) : bool :=
  match v with
  | VAtom _ => true
  | VAST cls fs ats attrs =>
      forallb (fun name =>
                 match getattr_then atoms_only attrs name with
                 | Some b => b
                 | None => true
                 end) (fs ++ ats)
  | VList items => forallb atoms_only items
  | VTuple _ | VDict _ => false
  end.

(** ** Comparing a document with the tree it came from *)

Definition atom_eqb (a b : atom) : bool :=
  match a, b with
  | ANone, ANone => true
  | ABool x, ABool y => Bool.eqb x y
  | AInt x, AInt y => Z.eqb x y
  | AFloat x, AFloat y => String.eqb x y
  | AComplex x, AComplex y => String.eqb x y
  | AStr x, AStr y => String.eqb x y
  | ABytes x, ABytes y => String.eqb x y
  | AEllipsis, AEllipsis => true
  | _, _ => false
  end.

Fixpoint list_eqb {A} (eqb : A -> A -> bool) (l1 l2 : list A) : bool :=
  match l1, l2 with
  | [], [] => true
  | x :: r1, y :: r2 => eqb x y && list_eqb eqb r1 r2
  | _, _ => false
  end.

(** [check x y] for the items of two lists taken in step; the lists must
    be of one length. *)
Definition pairwise {A B} (check : A -> B -> bool)
  : list A -> list B -> bool :=
  fix go (l1 : list A) (l2 : list B) : bool :=
    match l1, l2 with
    | [], [] => true
    | x :: r1, y :: r2 => check x y && go r1 r2
    | _, _ => false
    end.

Fixpoint value_eqb (v w : value) {struct v} : bool :=
  let entries_eqb :=
    pairwise (fun (kv kw : string * value) =>
                String.eqb (fst kv) (fst kw)
                && (let (_, x) := kv in value_eqb x) (snd kw)) in
  match v, w with
  | VAtom a, VAtom b => atom_eqb a b
  | VTuple l1, VTuple l2 => pairwise value_eqb l1 l2
  | VList l1, VList l2 => pairwise value_eqb l1 l2
  | VDict d1, VDict d2 => entries_eqb d1 d2
  | VAST c1 f1 a1 s1, VAST c2 f2 a2 s2 =>
      String.eqb c1 c2 && list_eqb String.eqb f1 f2
      && list_eqb String.eqb a1 a2 && entries_eqb s1 s2
  | _, _ => false
  end.

(** The walk over a document beside its tree.  At a node the document
    must be a mapping whose keys are [_type] and then the declared field
    and attribute names, verbatim and in order, with the class name under
    [_type] and under every name a document that matches the child; at a
    list it must be a list of the same length whose items match in order;
    anything else must be the value itself. *)
Fixpoint walk (tree doc : value) {struct tree} : bool :=
  match tree with
  | VAST cls fs ats attrs =>
      match doc with
      | VDict entries =>
          list_eqb String.eqb (map fst entries) ("_type" :: fs ++ ats)
          && match lookup entries "_type" with
             | Some d => value_eqb d (VStr cls)
             | None => false
             end
          && forallb (fun field =>
                        match getattr_then walk attrs field,
                              lookup entries field with
                        | Some check, Some d => check d
                        | _, _ => false
                        end) fs
          && forallb (fun attr =>
                        match lookup entries attr with
                        | Some d =>
                            match getattr_then walk attrs attr with
                            | Some check => check d
                            | None => value_eqb d VNone
                            end
                        | None => false
                        end) ats
      | _ => false
      end
  | VList items =>
      match doc with
      | VList ditems => pairwise walk items ditems
      | _ => false
      end
  | _ => value_eqb tree doc
  end.

(** What the JSON encoder can write. *)
Fixpoint json_ok (o : value) : bool :=
  match o with
  | VAtom (ABytes _) | VAtom (AComplex _) | VAtom AEllipsis => false
  | VAtom _ => true
  | VList items | VTuple items => forallb json_ok items
  | VDict entries =>
      forallb (fun kv : string * value => let (_, x) := kv in json_ok x) entries
  | VAST _ _ _ _ => false
  end.

(** Every value that goes from the tree into the document as it is can
    be written as JSON. *)
Fixpoint encodable (v : value) : bool :=
  match v with
  | VAST cls fs ats attrs =>
      forallb (fun name =>
                 match getattr_then encodable attrs name with
                 | Some b => b
                 | None => true
                 end) (fs ++ ats)
  | VList items => forallb encodable items
  | _ => json_ok v
  end.

(** A character that is neither a control character, nor the double
    quote, nor the backslash. *)
Definition plain_char (c : ascii) : bool :=
  let n := nat_of_ascii c in
  (32 <=? n)%nat && negb (n =? 34)%nat && negb (n =? 92)%nat.

(** ** Some trees *)

(** The attributes of a located node. *)
Definition located : list string :=
  ["lineno"; "col_offset"; "end_lineno"; "end_col_offset"].

Definition at_pos (line col end_col : Z) : list (string * value) :=
  [("lineno", VInt line); ("col_offset", VInt col);
   ("end_lineno", VInt line); ("end_col_offset", VInt end_col)].

Definition Load : value := VAST "Load" [] [] [].
Definition Store : value := VAST "Store" [] [] [].

(** [Name(id=id, ctx=ctx)] at a position. *)
Definition Name (id : string) (ctx : value) (pos : list (string * value))
  : value :=
  VAST "Name" ["id"; "ctx"] located (("id", VStr id) :: ("ctx", ctx) :: pos).

(** [Constant(value=v, kind=None)] at a position. *)
Definition Constant (v : value) (pos : list (string * value)) : value :=
  VAST "Constant" ["value"; "kind"] located
    (("value", v) :: ("kind", VNone) :: pos).

Definition Module (body : list value) : value :=
  VAST "Module" ["body"; "type_ignores"] []
    [("body", VList body); ("type_ignores", VList [])].

(** [ast.Name(ctx=ast.Load())]: a node built by hand, its field [id] never
    set. *)
Definition name_without_id : value :=
  VAST "Name" ["id"; "ctx"] located [("ctx", Load)].

(** [ast.Name(id='x', ctx=ast.Load())]: a node built by hand, without a
    position. *)
Definition name_without_position : value := Name "x" Load [].

(** An instance of [class Weird(ast.AST): _fields = ('_type',)]. *)
Definition weird : value := VAST "Weird" ["_type"] [] [("_type", VStr "x")].

(** The tree of the source text [x = 1]. *)
Definition module_x_is_1 : value :=
  Module
    [VAST "Assign" ["targets"; "value"; "type_comment"] located
       (("targets", VList [Name "x" Store (at_pos 1 0 1)])
        :: ("value", Constant (VInt 1) (at_pos 1 4 5))
        :: ("type_comment", VNone) :: at_pos 1 0 5)].

(** The tree of the source text [...], an expression statement holding
    the constant [Ellipsis]. *)
Definition module_ellipsis : value :=
  Module
    [VAST "Expr" ["value"] located
       (("value", Constant VEllipsis (at_pos 1 0 3)) :: at_pos 1 0 3)].

(** ** Some runs *)

(** A machine with one source file, [stub.py], holding the text [...],
    and the parser's answer for that text. *)
Definition stub_world : world := {|
  read_text := fun path encoding =>
    if String.eqb path "stub.py" then Ok ("..." ++ newline)
    else Raise (OSError path);
  ast_parse := fun source filename mode type_comments =>
    if String.eqb source ("..." ++ newline) && String.eqb mode "exec"
    then Ok module_ellipsis
    else Raise SyntaxError
|}.

(** A machine with one source file, [one.py], holding the text [x = 1]. *)
Definition one_world : world := {|
  read_text := fun path encoding =>
    if String.eqb path "one.py" then Ok ("x = 1" ++ newline)
    else Raise (OSError path);
  ast_parse := fun source filename mode type_comments =>
    if String.eqb source ("x = 1" ++ newline) && String.eqb mode "exec"
    then Ok module_x_is_1
    else Raise SyntaxError
|}.

(** [s] between double quotes. *)
Definition quoted (s : string) : string := dquote ++ s ++ dquote.

(** The lines of a text, joined. *)
Definition lines (l : list string) : string := String.concat newline l.

(** * The serialiser on the heap

    Python values are objects with an identity: two names may hold the
    same object, and [result[field] = ...] changes the dictionary that
    [result] names.  The heap below gives every object an address; the
    serialiser takes the address of its argument and returns the address
    of the document. *)

Definition loc : Type := nat.

Inductive obj : Type :=
| OAtom (a : atom)
| OTuple (items : list loc)
| OList (items : list loc)
| ODict (entries : list (string * loc))
| OAST (cls : string) (_fields _attributes : list string)
       (attrs : list (string * loc)).

(** The object at address [l] is the [l]-th of the heap. *)
Definition heap : Type := list obj.

(** A new object goes to the end of the heap. *)
Definition alloc (o : obj) (h : heap) : loc * heap :=
  (List.length h, (h ++ [o])%list).

Fixpoint update (h : heap) (l : loc) (o : obj) : heap :=
  match h, l with
  | [], _ => []
  | _ :: rest, O => o :: rest
  | x :: rest, S l' => x :: update rest l' o
  end.

(** [result[k] = v] on the dictionary at [res]. *)
Definition setitem_at (res : loc) (k : string) (v : loc) (h : heap) : heap :=
  match nth_error h res with
  | Some (ODict entries) => update h res (ODict (setitem entries k v))
  | _ => h
  end.

(** [result.append(v)] on the list at [res]. *)
Definition append_at (res : loc) (v : loc) (h : heap) : heap :=
  match nth_error h res with
  | Some (OList items) => update h res (OList (items ++ [v])%list)
  | _ => h
  end.

(** [for name in names: result[name] = get(name)] on the heap. *)
Fixpoint store_each_at (get : string -> heap -> result (loc * heap))
  (names : list string) (res : loc) (h : heap) : result (unit * heap) :=
  match names with
  | [] => Ok (tt, h)
  | name :: rest =>
      '(v, h) <- get name h ;;
      store_each_at get rest res (setitem_at res name v h)
  end.

(** [[f(x) for x in xs]] on the heap, the new list being at [res]. *)
Fixpoint append_each_at (f : loc -> heap -> result (loc * heap))
  (xs : list loc) (res : loc) (h : heap) : result (unit * heap) :=
  match xs with
  | [] => Ok (tt, h)
  | x :: rest =>
      '(y, h) <- f x h ;;
      append_each_at f rest res (append_at res y h)
  end.

(** [ast_to_dict] on the heap.  [depth] is the number of nested calls the
    interpreter still allows; at 0 the call raises [RecursionError].  The
    class name and the default [None] are atoms, for which a new object
    stands as well as the interpreter's own. *)
Fixpoint ast_to_dict_at (depth : nat) (node : loc) (h : heap)
  : result (loc * heap) :=
  match depth with
  | O => Raise RecursionError
  | S depth' =>
      match nth_error h node with
      | None => Raise SystemError
      | Some (OAST cls _fields _attributes attrs) =>
          let (name, h) := alloc (OAtom (AStr cls)) h in
          let (res, h) := alloc (ODict [("_type", name)]) h in
          '(_, h) <- store_each_at
                       (fun field h =>
                          match lookup attrs field with
                          | Some v => ast_to_dict_at depth' v h
                          | None => Raise (AttributeError cls field)
                          end)
                       _fields res h ;;
          '(_, h) <- store_each_at
                       (fun attr h =>
                          match lookup attrs attr with
                          | Some v => ast_to_dict_at depth' v h
                          | None =>
                              let (none, h) := alloc (OAtom ANone) h in
                              ast_to_dict_at depth' none h
                          end)
                       _attributes res h ;;
          Ok (res, h)
      | Some (OList items) =>
          let (res, h) := alloc (OList []) h in
          '(_, h) <- append_each_at (ast_to_dict_at depth') items res h ;;
          Ok (res, h)
      | Some _ => Ok (node, h)
      end
  end.

(** The number of nested calls the serialiser makes on a tree. *)
Fixpoint height (v : value) : nat :=
  match v with
  | VAST _ _ _ attrs =>
      S (fold_right (fun (kv : string * value) m =>
                       Nat.max (let (_, x) := kv in height x) m) 1%nat attrs)
  | VList items => S (fold_right (fun x m => Nat.max (height x) m) 0%nat items)
  | _ => 1%nat
  end.

(** [R] holds of the items of two lists taken in step. *)
Definition all2 {A B} (R : A -> B -> Prop) : list A -> list B -> Prop :=
  fix go (l1 : list A) (l2 : list B) : Prop :=
    match l1, l2 with
    | [], [] => True
    | x :: r1, y :: r2 => R x y /\ go r1 r2
    | _, _ => False
    end.

(** The object at [l] and the objects below it, all at addresses in [P],
    hold the value [v]. *)
Fixpoint rep (P : loc -> Prop) (h : heap) (v : value) (l : loc) {struct v}
  : Prop :=
  let entry :=
    fun (kv : string * value) (e : string * loc) =>
      fst kv = fst e /\ (let (_, x) := kv in rep P h x) (snd e) in
  P l /\
  match v with
  | VAtom a => nth_error h l = Some (OAtom a)
  | VTuple vs =>
      exists ls, nth_error h l = Some (OTuple ls) /\ all2 (rep P h) vs ls
  | VList vs =>
      exists ls, nth_error h l = Some (OList ls) /\ all2 (rep P h) vs ls
  | VDict d =>
      exists es, nth_error h l = Some (ODict es) /\ all2 entry d es
  | VAST cls fs ats attrs =>
      exists es, nth_error h l = Some (OAST cls fs ats es)
                 /\ all2 entry attrs es
  end.

(** [f x y] for the items of two lists taken in step, one after the
    other. *)
Definition flat2 {A B C} (f : A -> B -> list C)
  : list A -> list B -> list C :=
  fix go (l1 : list A) (l2 : list B) : list C :=
    match l1, l2 with
    | x :: r1, y :: r2 => (f x y ++ go r1 r2)%list
    | _, _ => []
    end.

(** The addresses of the dictionaries and lists that the walk from [l]
    along [v] meets, each as often as it is met. *)
Fixpoint containers (h : heap) (v : value) (l : loc) {struct v} : list loc :=
  match v with
  | VList vs =>
      l :: match nth_error h l with
           | Some (OList ls) => flat2 (containers h) vs ls
           | _ => []
           end
  | VDict d =>
      l :: match nth_error h l with
           | Some (ODict es) =>
               flat2 (fun (kv : string * value) (e : string * loc) =>
                        (let (_, x) := kv in containers h x) (snd e)) d es
           | _ => []
           end
  | _ => []
  end.

(** The dictionaries and lists made since the heap had [n] objects. *)
Definition made (n : nat) (h : heap) (v : value) (l : loc) : list loc :=
  filter (fun x => (n <=? x)%nat) (containers h v l).

(** [h'] has every object of [h], unchanged, and maybe more. *)
Definition extends (h h' : heap) : Prop :=
  (List.length h <= List.length h')%nat
  /\ forall l, (l < List.length h)%nat -> nth_error h' l = nth_error h l.

(** [h'] has the objects of [h] below address [n], unchanged. *)
Definition agree (n : nat) (h h' : heap) : Prop :=
  (n <= List.length h')%nat
  /\ forall l, (l < n)%nat -> nth_error h' l = nth_error h l.

(** An entry of a dictionary on the heap holds an entry of a dictionary. *)
Definition entry_rep (P : loc -> Prop) (h : heap)
  (kv : string * value) (e : string * loc) : Prop :=
  fst kv = fst e /\ rep P h (snd kv) (snd e).

(** A computation on the heap does what a computation on trees does: run
    on a heap that has the objects of [h0] below [base], it raises what
    the other raises, or returns the address of what the other returns,
    held in old objects below [base] and in new ones, no new dictionary
    or list being met twice, on a heap that extends the one it started
    from.  With [plain], every dictionary and list of the value is a new
    one. *)
Definition returns_like (plain : bool) (base : nat) (h0 : heap)
  (run : heap -> result (loc * heap)) (t : result value) : Prop :=
  forall hc,
    agree base h0 hc ->
    match t with
    | Ok d =>
        exists r hc',
          run hc = Ok (r, hc')
          /\ extends hc hc'
          /\ rep (fun x => (x < base)%nat \/ (List.length hc <= x)%nat) hc' d r
          /\ NoDup (made (List.length hc) hc' d r)
          /\ (plain = true ->
              Forall (fun x => (List.length hc <= x)%nat) (containers hc' d r))
    | Raise e => run hc = Raise e
    end.

(** The object at [l] holds the value [v]. *)
Definition holds (h : heap) (l : loc) (v : value) : Prop :=
  rep (fun _ => True) h v l.

(** A heap with a list of twice the same object, the node
    [Name(id='x', ctx=Load())], and a heap with a list of two such nodes
    that share nothing.  Both lists hold the same tree. *)
Definition shared_heap : heap :=
  [OAtom (AStr "x"); OAST "Load" [] [] [];
   OAST "Name" ["id"; "ctx"] located [("id", 0); ("ctx", 1)]%nat;
   OList [2; 2]%nat].

Definition unshared_heap : heap :=
  [OAST "Name" ["id"; "ctx"] located [("id", 4); ("ctx", 5)]%nat;
   OAST "Name" ["id"; "ctx"] located [("id", 2); ("ctx", 3)]%nat;
   OAtom (AStr "x"); OAST "Load" [] [] [];
   OAtom (AStr "x"); OAST "Load" [] [] [];
   OList [1; 0]%nat].

Definition two_names : value :=
  VList [name_without_position; name_without_position].

(** ** Missing fields *)

(** The declared fields that are missing on the nodes of a tree, each with
    the class of its node, in the order in which the serialiser comes to
    them: the fields of a node before its attributes, a child before the
    names after it. *)
Fixpoint missing_fields (v : value) : list (string * string) :=
  match v with
  | VAST cls fs ats attrs =>
      (flat_map (fun field =>
                   match getattr_then missing_fields attrs field with
                   | Some l => l
                   | None => [(cls, field)]
                   end) fs
       ++ flat_map (fun attr =>
                      match getattr_then missing_fields attrs attr with
                      | Some l => l
                      | None => []
                      end) ats)%list
  | VList items => flat_map missing_fields items
  | _ => []
  end.

(** A computation returns when nothing is missing and raises the
    [AttributeError] of the first missing field otherwise. *)
Definition stops_at {A} (missing : list (string * string)) (r : result A)
  : Prop :=
  match missing with
  | [] => exists a, r = Ok a
  | (cls, field) :: _ => r = Raise (AttributeError cls field)
  end.

(** A node whose class declares [lineno] both as a field and as an
    attribute. *)
Definition twice_declared : value :=
  VAST "Odd" ["lineno"; "body"] ["lineno"; "col_offset"]
    [("lineno", VInt 7); ("body", VList [])].

(** A located name with one more attribute on the instance, which the
    class does not declare, and with its position set in another order. *)
Definition name_with_parent : value :=
  VAST "Name" ["id"; "ctx"] located
    (("parent", VStr "up") :: ("end_col_offset", VInt 1)
     :: ("end_lineno", VInt 1) :: ("col_offset", VInt 0)
     :: ("lineno", VInt 1) :: ("ctx", Load) :: ("id", VStr "x") :: nil).

(** A heap whose only object is a list that holds itself. *)
Definition looping_heap : heap := [OList [0%nat]].

(** * Properties of the serialiser *)

Local Open Scope list_scope.

(** ** Attribute access and the loops *)

Lemma getattr_then_lookup {A B} (f : A -> B) attrs name :
  getattr_then f attrs name = option_map f (lookup attrs name).
Proof.
  induction attrs as [|[k v] rest IH]; simpl; [reflexivity|].
  destruct (String.eqb k name); [reflexivity | exact IH].
Qed.

Lemma lookup_In {A} (d : list (string * A)) k v :
  lookup d k = Some v -> In (k, v) d.
Proof.
  induction d as [|[k' v'] rest IH]; simpl; [discriminate|].
  destruct (String.eqb k' k) eqn:E.
  - apply String.eqb_eq in E. intros [= <-]. subst. now left.
  - intros H. right. now apply IH.
Qed.

Lemma store_each_ext get1 get2 names res :
  (forall n, In n names -> get1 n = get2 n) ->
  store_each get1 names res = store_each get2 names res.
Proof.
  revert res. induction names as [|n rest IH]; intros res H; simpl.
  - reflexivity.
  - rewrite (H n (or_introl eq_refl)). destruct (get2 n); simpl.
    + apply IH. intros m Hm. apply H. now right.
    + reflexivity.
Qed.

(** The serialiser in the words of the source: one [getattr] and one
    recursive call per declared name. *)
Lemma ast_to_dict_node cls fs ats attrs :
  ast_to_dict (VAST cls fs ats attrs) =
    (res <- store_each
              (fun field => v <- getattr cls attrs field ;; ast_to_dict v)
              fs [("_type", VStr cls)] ;;
     res <- store_each
              (fun attr => ast_to_dict (getattr_default attrs attr VNone))
              ats res ;;
     Ok (VDict res)).
Proof.
  simpl.
  rewrite (store_each_ext _
             (fun field => v <- getattr cls attrs field ;; ast_to_dict v)).
  2:{ intros n _. rewrite getattr_then_lookup. unfold getattr.
      now destruct (lookup attrs n). }
  destruct (store_each _ fs _) as [res|e]; simpl; [|reflexivity].
  rewrite (store_each_ext _
             (fun attr => ast_to_dict (getattr_default attrs attr VNone))).
  - reflexivity.
  - intros n _. rewrite getattr_then_lookup. unfold getattr_default.
    now destruct (lookup attrs n).
Qed.

Lemma ast_to_dict_list items :
  ast_to_dict (VList items) =
    (items' <- comprehension ast_to_dict items ;; Ok (VList items')).
Proof. reflexivity. Qed.

Lemma ast_to_dict_other v :
  is_AST v = false -> is_list v = false -> ast_to_dict v = Ok v.
Proof. destruct v; simpl; intros; (reflexivity || discriminate). Qed.

(** ** Dictionaries *)

Lemma setitem_new {A} (d : list (string * A)) k v :
  ~ In k (map fst d) -> setitem d k v = d ++ [(k, v)].
Proof.
  induction d as [|[k' v'] rest IH]; simpl; intros H; [reflexivity|].
  destruct (String.eqb k' k) eqn:E.
  - apply String.eqb_eq in E. exfalso. apply H. now left.
  - f_equal. apply IH. intros H1. apply H. now right.
Qed.

Lemma lookup_setitem_same {A} (d : list (string * A)) k v : lookup (setitem d k v) k = Some v.
Proof.
  induction d as [|[k' v'] rest IH]; simpl.
  - now rewrite String.eqb_refl.
  - destruct (String.eqb k' k) eqn:E; simpl; rewrite E; [reflexivity|exact IH].
Qed.

Lemma lookup_setitem_other {A} (d : list (string * A)) k k' v :
  k <> k' -> lookup (setitem d k v) k' = lookup d k'.
Proof.
  intros Hne. induction d as [|[k0 v0] rest IH]; simpl.
  - destruct (String.eqb k k') eqn:E; [|reflexivity].
    apply String.eqb_eq in E. contradiction.
  - destruct (String.eqb k0 k) eqn:E; simpl.
    + apply String.eqb_eq in E. subst k0.
      destruct (String.eqb k k') eqn:E'; [|reflexivity].
      apply String.eqb_eq in E'. contradiction.
    + destruct (String.eqb k0 k'); [reflexivity | exact IH].
Qed.

Lemma distinct_NoDup l : distinct l = true <-> NoDup l.
Proof.
  induction l as [|x rest IH]; simpl.
  - split; [constructor | reflexivity].
  - rewrite andb_true_iff, negb_true_iff, IH. split.
    + intros [H1 H2]. constructor; [|exact H2]. intros Hin.
      assert (existsb (String.eqb x) rest = true) as E.
      { apply existsb_exists. exists x. split; [exact Hin|].
        apply String.eqb_refl. }
      congruence.
    + intros H. inversion H as [|? ? Hn Hd]; subst. split; [|exact Hd].
      destruct (existsb (String.eqb x) rest) eqn:E; [|reflexivity].
      apply existsb_exists in E. destruct E as [y [Hy Hxy]].
      apply String.eqb_eq in Hxy. subst y. contradiction.
Qed.

(** Storing under names that are new and differ from each other appends
    the entries in the order of the names. *)
Lemma store_each_append get names vals res :
  Forall2 (fun n v => get n = Ok v) names vals ->
  NoDup (map fst res ++ names) ->
  store_each get names res = Ok (res ++ combine names vals).
Proof.
  intros HF. revert res.
  induction HF as [|n v names vals Hn HF IH]; intros res Hnd; simpl.
  - now rewrite app_nil_r.
  - rewrite Hn. simpl.
    assert (~ In n (map fst res)) as Hfresh.
    { intros Hin. apply NoDup_remove_2 in Hnd. apply Hnd.
      apply in_or_app. now left. }
    rewrite (setitem_new _ _ _ Hfresh), IH.
    + now rewrite <- app_assoc.
    + rewrite map_app. simpl. rewrite <- app_assoc. exact Hnd.
Qed.

(** After the loop every stored name holds what [get] gave for it. *)
Lemma store_each_lookup get names res res' name v :
  store_each get names res = Ok res' ->
  In name names -> get name = Ok v ->
  lookup res' name = Some v.
Proof.
  revert res. induction names as [|n rest IH]; intros res Hs Hin Hget;
    [destruct Hin|].
  simpl in Hs. destruct (get n) as [vn|e] eqn:En; simpl in Hs; [|discriminate].
  destruct (in_dec string_dec name rest) as [Hr|Hr].
  - eapply IH; eassumption.
  - destruct Hin as [->|Hin]; [|contradiction].
    assert (vn = v) by congruence. subst vn. clear IH.
    assert (forall r, lookup r name = Some v ->
                      store_each get rest r = Ok res' ->
                      lookup res' name = Some v) as K.
    { clear Hs. induction rest as [|m rest IH]; intros r Hl Hs; simpl in Hs.
      - now inversion Hs; subst.
      - destruct (get m) as [vm|e] eqn:Em; simpl in Hs; [|discriminate].
        apply (IH (fun H => Hr (or_intror H)) (setitem r m vm)); [|exact Hs].
        rewrite lookup_setitem_other; [exact Hl|].
        intros ->. apply Hr. now left. }
    apply (K (setitem res name v)); [apply lookup_setitem_same | exact Hs].
Qed.

Lemma store_each_returns get names res :
  (exists res', store_each get names res = Ok res') <->
  Forall (fun n => exists v, get n = Ok v) names.
Proof.
  revert res. induction names as [|n rest IH]; intros res; simpl.
  - split; [constructor | intros _; now exists res].
  - split.
    + intros [res' H]. destruct (get n) as [v|e] eqn:E; simpl in H;
        [|discriminate].
      constructor; [now exists v|]. apply (IH (setitem res n v)).
      now exists res'.
    + intros H. inversion H as [|? ? [v Hv] Hrest]; subst.
      rewrite Hv. simpl. now apply IH.
Qed.

Lemma comprehension_Forall2 {A B} (f : A -> result B) xs ys :
  comprehension f xs = Ok ys <-> Forall2 (fun x y => f x = Ok y) xs ys.
Proof.
  revert ys. induction xs as [|x rest IH]; intros ys; simpl.
  - split.
    + intros [= <-]. constructor.
    + intros H. now inversion H.
  - split.
    + destruct (f x) as [y|e] eqn:E; simpl; [|discriminate].
      destruct (comprehension f rest) as [ys'|e] eqn:E'; simpl;
        [|discriminate].
      intros [= <-]. constructor; [exact E | now apply IH].
    + intros H. inversion H as [|? y ? ys' Hy Hrest]; subst.
      rewrite Hy. simpl. apply IH in Hrest. now rewrite Hrest.
Qed.

Lemma comprehension_returns {A B} (f : A -> result B) xs :
  (exists ys, comprehension f xs = Ok ys) <->
  Forall (fun x => exists y, f x = Ok y) xs.
Proof.
  induction xs as [|x rest IH]; simpl.
  - split; [constructor | intros _; now exists []].
  - split.
    + intros [ys H]. destruct (f x) as [y|e] eqn:E; simpl in H;
        [|discriminate].
      destruct (comprehension f rest) as [ys'|e] eqn:E'; simpl in H;
        [|discriminate].
      constructor; [now exists y|]. apply IH. now exists ys'.
    + intros H. inversion H as [|? ? [y Hy] Hrest]; subst.
      apply IH in Hrest. destruct Hrest as [ys Hys].
      rewrite Hy, Hys. simpl. now eexists.
Qed.

(** ** When the serialiser returns *)

(** [ast_to_dict] returns exactly on the trees whose declared fields are
    all present. *)
Lemma ast_to_dict_returns v :
  fields_present v = true <-> exists d, ast_to_dict v = Ok d.
Proof.
  induction v as [a|items IH|items IH|entries IH|cls fs ats attrs IH]
    using value_ind'; try (split; [intros _; now eexists | reflexivity]).
  - (* a list *)
    rewrite ast_to_dict_list. simpl. rewrite forallb_forall.
    rewrite Forall_forall in IH. split.
    + intros H.
      destruct (proj2 (comprehension_returns ast_to_dict items)) as [ys Hys].
      { apply Forall_forall. intros x Hx. apply IH; auto. }
      rewrite Hys. simpl. now eexists.
    + intros [d H] x Hx.
      destruct (comprehension ast_to_dict items) as [ys|e] eqn:E;
        simpl in H; [|discriminate].
      assert (exists ys, comprehension ast_to_dict items = Ok ys) as E'
        by now exists ys.
      apply comprehension_returns in E'. rewrite Forall_forall in E'.
      apply IH; auto.
  - (* a node *)
    rewrite ast_to_dict_node. rewrite Forall_forall in IH.
    assert (forall n v, lookup attrs n = Some v ->
              (fields_present v = true <-> exists d, ast_to_dict v = Ok d))
      as IH'.
    { intros n v Hl. apply (IH (n, v)). now apply lookup_In. }
    simpl. rewrite andb_true_iff, !forallb_forall. split.
    + intros [Hf Ha].
      destruct (proj2 (store_each_returns
                  (fun field => v <- getattr cls attrs field ;; ast_to_dict v)
                  fs [("_type", VStr cls)])) as [res Hres].
      { apply Forall_forall. intros n Hn. specialize (Hf n Hn).
        rewrite getattr_then_lookup in Hf. unfold getattr.
        destruct (lookup attrs n) as [v|] eqn:El; simpl in *; [|discriminate].
        now apply (IH' n). }
      rewrite Hres. simpl.
      destruct (proj2 (store_each_returns
                  (fun attr => ast_to_dict (getattr_default attrs attr VNone))
                  ats res)) as [res' Hres'].
      { apply Forall_forall. intros n Hn. specialize (Ha n Hn).
        rewrite getattr_then_lookup in Ha. unfold getattr_default.
        destruct (lookup attrs n) as [v|] eqn:El; simpl in *.
        - now apply (IH' n).
        - now eexists. }
      rewrite Hres'. simpl. now eexists.
    + intros [d H].
      destruct (store_each _ fs _) as [res|e] eqn:E1; simpl in H;
        [|discriminate].
      destruct (store_each _ ats res) as [res'|e] eqn:E2; simpl in H;
        [|discriminate].
      assert (exists r, store_each
                (fun field => v <- getattr cls attrs field ;; ast_to_dict v)
                fs [("_type", VStr cls)] = Ok r) as E1' by now exists res.
      assert (exists r, store_each
                (fun attr => ast_to_dict (getattr_default attrs attr VNone))
                ats res = Ok r) as E2' by now exists res'.
      apply store_each_returns in E1', E2'.
      rewrite Forall_forall in E1', E2'. split.
      * intros n Hn. destruct (E1' n Hn) as [d' Hd'].
        rewrite getattr_then_lookup. unfold getattr in Hd'.
        destruct (lookup attrs n) as [v|] eqn:El; simpl in *; [|discriminate].
        apply (IH' n v El). now exists d'.
      * intros n Hn. destruct (E2' n Hn) as [d' Hd'].
        rewrite getattr_then_lookup. unfold getattr_default in Hd'.
        destruct (lookup attrs n) as [v|] eqn:El; simpl in *; [|reflexivity].
        apply (IH' n v El). now exists d'.
Qed.

Lemma store_each_raises get names res e :
  store_each get names res = Raise e ->
  exists n, In n names /\ get n = Raise e.
Proof.
  revert res. induction names as [|n rest IH]; intros res; simpl;
    [discriminate|].
  destruct (get n) as [v|e'] eqn:E; simpl.
  - intros H. destruct (IH _ H) as [m [Hm Hg]]. exists m. split; auto.
  - intros [= ->]. exists n. split; auto.
Qed.

Lemma comprehension_raises {A B} (f : A -> result B) xs e :
  comprehension f xs = Raise e -> exists x, In x xs /\ f x = Raise e.
Proof.
  induction xs as [|x rest IH]; simpl; [discriminate|].
  destruct (f x) as [y|e'] eqn:E; simpl.
  - destruct (comprehension f rest) as [ys|e'']; simpl; [discriminate|].
    intros [= ->]. destruct (IH eq_refl) as [z [Hz Hf]]. exists z. auto.
  - intros [= ->]. exists x. auto.
Qed.

(** The only exception the serialiser raises is the [AttributeError] of a
    missing field. *)
Lemma ast_to_dict_raises v e :
  ast_to_dict v = Raise e -> exists cls name, e = AttributeError cls name.
Proof.
  revert e.
  induction v as [a|items IH|items IH|entries IH|cls fs ats attrs IH]
    using value_ind'; intros e; try discriminate.
  - rewrite ast_to_dict_list.
    destruct (comprehension ast_to_dict items) as [ys|e'] eqn:E; simpl;
      [discriminate|].
    intros [= ->]. apply comprehension_raises in E.
    destruct E as [x [Hx Hr]]. rewrite Forall_forall in IH. eauto.
  - rewrite ast_to_dict_node. rewrite Forall_forall in IH.
    destruct (store_each _ fs _) as [res|e'] eqn:E1; simpl.
    + destruct (store_each _ ats res) as [res'|e'] eqn:E2; simpl;
        [discriminate|].
      intros [= ->]. apply store_each_raises in E2.
      destruct E2 as [n [_ Hr]]. unfold getattr_default in Hr.
      destruct (lookup attrs n) as [v|] eqn:El; [|discriminate].
      apply lookup_In in El. apply (IH _ El _ Hr).
    + intros [= ->]. apply store_each_raises in E1.
      destruct E1 as [n [_ Hr]]. unfold getattr in Hr.
      destruct (lookup attrs n) as [v|] eqn:El; simpl in Hr.
      * apply lookup_In in El. apply (IH _ El _ Hr).
      * inversion Hr. eauto.
Qed.

Lemma Forall_ex_Forall2 {A B} (R : A -> B -> Prop) l :
  Forall (fun x => exists y, R x y) l -> exists l', Forall2 R l l'.
Proof.
  induction 1 as [|x l [y Hy] _ [l' IH]].
  - exists []. constructor.
  - exists (y :: l'). now constructor.
Qed.

Lemma Forall2_nth_error_l {A B} (R : A -> B -> Prop) l l' i x :
  Forall2 R l l' -> nth_error l i = Some x ->
  exists y, nth_error l' i = Some y /\ R x y.
Proof.
  intros H. revert i. induction H as [|a b l l' Hab _ IH]; intros i.
  - destruct i; discriminate.
  - destruct i; simpl.
    + intros [= ->]. now exists b.
    + apply IH.
Qed.

Lemma map_fst_combine {A B} (l : list A) (l' : list B) :
  List.length l = List.length l' -> map fst (combine l l') = l.
Proof.
  revert l'. induction l as [|x l IH]; intros [|y l']; simpl;
    try reflexivity; try discriminate.
  intros [= H]. now rewrite IH.
Qed.

(** ** What a node becomes *)

(** The entries of the mapping of a node, when its names are distinct. *)
Lemma node_entries cls fs ats attrs :
  fields_present (VAST cls fs ats attrs) = true ->
  distinct ("_type" :: fs ++ ats) = true ->
  exists fvals avals,
    ast_to_dict (VAST cls fs ats attrs) =
      Ok (VDict (("_type", VStr cls) :: combine fs fvals ++ combine ats avals))
    /\ Forall2 (fun field d =>
                  exists v, lookup attrs field = Some v /\ ast_to_dict v = Ok d)
         fs fvals
    /\ Forall2 (fun attr d =>
                  match lookup attrs attr with
                  | Some v => ast_to_dict v = Ok d
                  | None => d = VNone
                  end)
         ats avals.
Proof.
  intros Hp Hd. apply distinct_NoDup in Hd.
  apply ast_to_dict_returns in Hp. destruct Hp as [d Hd0].
  rewrite ast_to_dict_node in Hd0.
  destruct (store_each _ fs _) as [res|e] eqn:E1; simpl in Hd0;
    [|discriminate].
  destruct (store_each _ ats res) as [res'|e] eqn:E2; simpl in Hd0;
    [|discriminate].
  clear Hd0 d.
  assert (exists r, store_each
            (fun field => v <- getattr cls attrs field ;; ast_to_dict v)
            fs [("_type", VStr cls)] = Ok r) as E1' by now exists res.
  assert (exists r, store_each
            (fun attr => ast_to_dict (getattr_default attrs attr VNone))
            ats res = Ok r) as E2' by now exists res'.
  apply store_each_returns, Forall_ex_Forall2 in E1', E2'.
  destruct E1' as [fvals Hf], E2' as [avals Ha].
  clear E1 E2 res res'.
  exists fvals, avals.
  rewrite ast_to_dict_node, (store_each_append _ _ _ _ Hf).
  2:{ simpl. apply (NoDup_app_remove_r ("_type" :: fs) ats). exact Hd. }
  simpl. rewrite (store_each_append _ _ _ _ Ha).
  2:{ simpl. rewrite map_fst_combine; [exact Hd|].
      exact (Forall2_length Hf). }
  simpl.
  split; [reflexivity|]. split.
  - eapply Forall2_impl; [|exact Hf]. intros n d H. simpl in H.
    unfold getattr in H. destruct (lookup attrs n) as [v|]; simpl in H;
      [|discriminate].
    now exists v.
  - eapply Forall2_impl; [|exact Ha]. intros n d H. simpl in H.
    unfold getattr_default in H. destruct (lookup attrs n) as [v|];
      simpl in H; [exact H | now inversion H].
Qed.

Lemma lookup_NoDup {A} (d : list (string * A)) k v :
  NoDup (map fst d) -> In (k, v) d -> lookup d k = Some v.
Proof.
  induction d as [|[k' v'] rest IH]; simpl; intros Hnd Hin; [destruct Hin|].
  inversion Hnd as [|? ? Hn Hd]; subst.
  destruct Hin as [[= -> ->]|Hin].
  - now rewrite String.eqb_refl.
  - destruct (String.eqb k' k) eqn:E; [|now apply IH].
    apply String.eqb_eq in E. subst k'. exfalso. apply Hn.
    change k with (fst (k, v)). now apply in_map.
Qed.

Lemma Forall2_In_combine {A B} (R : A -> B -> Prop) l l' x :
  Forall2 R l l' -> In x l -> exists y, In (x, y) (combine l l') /\ R x y.
Proof.
  induction 1 as [|a b l l' Hab _ IH]; simpl; intros Hin; [destruct Hin|].
  destruct Hin as [->|Hin].
  - exists b. auto.
  - destruct (IH Hin) as [y [Hy HR]]. exists y. auto.
Qed.

(** C1, as amended: on a node whose declared fields are all present
    (throughout the tree below it) and whose declared field and attribute
    names differ from each other and from [_type], the serialiser returns a
    mapping whose keys are [_type], then the declared fields in declared
    order, then the declared attributes in declared order; it holds the
    class name under [_type], under every field the serialised value of
    the field, and under every attribute the serialised value of the
    attribute, or [None] where the attribute is absent. *)
Theorem node_becomes_mapping cls fs ats attrs :
  fields_present (VAST cls fs ats attrs) = true ->
  distinct ("_type" :: fs ++ ats) = true ->
  exists entries,
    ast_to_dict (VAST cls fs ats attrs) = Ok (VDict entries)
    /\ map fst entries = "_type" :: fs ++ ats
    /\ lookup entries "_type" = Some (VStr cls)
    /\ (forall field, In field fs ->
          exists v d, lookup attrs field = Some v
                      /\ ast_to_dict v = Ok d
                      /\ lookup entries field = Some d)
    /\ (forall attr, In attr ats ->
          exists d, lookup entries attr = Some d
                    /\ match lookup attrs attr with
                       | Some v => ast_to_dict v = Ok d
                       | None => d = VNone
                       end).
Proof.
  intros Hp Hd.
  destruct (node_entries cls fs ats attrs Hp Hd)
    as [fvals [avals [Heq [Hf Ha]]]].
  set (entries := ("_type", VStr cls)
                  :: combine fs fvals ++ combine ats avals) in *.
  assert (map fst entries = "_type" :: fs ++ ats) as Hkeys.
  { unfold entries. simpl. rewrite map_app, !map_fst_combine;
      [reflexivity | exact (Forall2_length Ha) | exact (Forall2_length Hf)]. }
  assert (NoDup (map fst entries)) as Hnd.
  { rewrite Hkeys. now apply distinct_NoDup. }
  exists entries. split; [exact Heq|]. split; [exact Hkeys|].
  split; [reflexivity|]. split.
  - intros field Hin.
    destruct (Forall2_In_combine _ _ _ _ Hf Hin) as [d [Hd1 [v [Hl Hv]]]].
    exists v, d. split; [exact Hl|]. split; [exact Hv|].
    apply (lookup_NoDup entries field d Hnd).
    right. apply in_or_app. now left.
  - intros attr Hin.
    destruct (Forall2_In_combine _ _ _ _ Ha Hin) as [d [Hd1 Hd2]].
    exists d. split; [|exact Hd2].
    apply (lookup_NoDup entries attr d Hnd).
    right. apply in_or_app. now right.
Qed.

Lemma node_becomes_mapping_witness :
  exists entries,
    ast_to_dict (Name "x" Load (at_pos 1 0 1)) = Ok (VDict entries)
    /\ map fst entries = "_type" :: ["id"; "ctx"] ++ located
    /\ lookup entries "_type" = Some (VStr "Name")
    /\ (forall field, In field ["id"; "ctx"] ->
          exists v d, lookup (("id", VStr "x") :: ("ctx", Load)
                              :: at_pos 1 0 1) field = Some v
                      /\ ast_to_dict v = Ok d
                      /\ lookup entries field = Some d)
    /\ (forall attr, In attr located ->
          exists d, lookup entries attr = Some d
                    /\ match lookup (("id", VStr "x") :: ("ctx", Load)
                                     :: at_pos 1 0 1) attr with
                       | Some v => ast_to_dict v = Ok d
                       | None => d = VNone
                       end).
Proof.
  apply (node_becomes_mapping "Name" ["id"; "ctx"] located
           (("id", VStr "x") :: ("ctx", Load) :: at_pos 1 0 1));
    reflexivity.
Defined.

(** C1 as stated fails on two nodes: one with a declared field that was
    never set, on which the serialiser raises instead of returning a
    mapping, and one whose class declares a field called [_type], whose
    mapping does not hold the class name under [_type]. *)
Lemma node_becomes_mapping_counterexample :
  ast_to_dict name_without_id = Raise (AttributeError "Name" "id")
  /\ ast_to_dict weird = Ok (VDict [("_type", VStr "x")])
  /\ ~ (exists entries,
          ast_to_dict name_without_id = Ok (VDict entries))
  /\ ~ (exists entries,
          ast_to_dict weird = Ok (VDict entries)
          /\ lookup entries "_type" = Some (VStr "Weird")).
Proof.
  split; [reflexivity|]. split; [reflexivity|]. split.
  - intros [entries H]. discriminate H.
  - intros [entries [H1 H2]]. inversion H1; subst. discriminate H2.
Qed.

(** ** What a list becomes *)

(** C2, as amended: on a list in which every declared field of every node
    is present, the serialiser returns a list of the same length whose
    items are the serialised items of the input, in the same order; the
    empty list gives the empty list. *)
Theorem list_becomes_list items :
  fields_present (VList items) = true ->
  exists items',
    ast_to_dict (VList items) = Ok (VList items')
    /\ List.length items' = List.length items
    /\ (forall i x, nth_error items i = Some x ->
          exists y, nth_error items' i = Some y /\ ast_to_dict x = Ok y)
    /\ (items = [] -> items' = []).
Proof.
  intros Hp. apply ast_to_dict_returns in Hp. destruct Hp as [d Hd].
  rewrite ast_to_dict_list in Hd |- *.
  destruct (comprehension ast_to_dict items) as [items'|e] eqn:E;
    simpl in Hd; [|discriminate].
  exists items'. apply comprehension_Forall2 in E.
  split; [reflexivity|]. split; [symmetry; exact (Forall2_length E)|]. split.
  - intros i x Hx. exact (Forall2_nth_error_l _ _ _ _ _ E Hx).
  - intros ->. now inversion E.
Qed.

Lemma list_becomes_list_witness :
  exists items',
    ast_to_dict (VList [Name "x" Load (at_pos 1 0 1); VInt 7]) =
      Ok (VList items')
    /\ List.length items' = 2%nat
    /\ (forall i x,
          nth_error [Name "x" Load (at_pos 1 0 1); VInt 7] i = Some x ->
          exists y, nth_error items' i = Some y /\ ast_to_dict x = Ok y)
    /\ ([Name "x" Load (at_pos 1 0 1); VInt 7] = [] -> items' = []).
Proof.
  apply (list_becomes_list [Name "x" Load (at_pos 1 0 1); VInt 7]).
  reflexivity.
Defined.

(** C2 as stated fails on two sequences: a tuple, which is returned as it
    is, the node inside it not serialised, and a list holding a node with a
    field that was never set, on which the serialiser raises. *)
Lemma list_becomes_list_counterexample :
  ast_to_dict (VTuple [Load]) = Ok (VTuple [Load])
  /\ ast_to_dict Load = Ok (VDict [("_type", VStr "Load")])
  /\ ast_to_dict (VList [name_without_id]) =
       Raise (AttributeError "Name" "id").
Proof. repeat split. Qed.

(** ** What anything else becomes *)

(** C3: a value that is neither a node nor a list is returned as it is,
    and nothing is raised. *)
Theorem scalar_passes_through v :
  is_AST v = false -> is_list v = false -> ast_to_dict v = Ok v.
Proof. apply ast_to_dict_other. Qed.

Lemma scalar_passes_through_witness :
  ast_to_dict (VStr "token") = Ok (VStr "token")
  /\ ast_to_dict (VInt 42) = Ok (VInt 42)
  /\ ast_to_dict (VFloat "1.5") = Ok (VFloat "1.5")
  /\ ast_to_dict (VBool true) = Ok (VBool true)
  /\ ast_to_dict VNone = Ok VNone
  /\ ast_to_dict (VBytes "raw") = Ok (VBytes "raw")
  /\ ast_to_dict VEllipsis = Ok VEllipsis.
Proof.
  split; [apply (scalar_passes_through (VStr "token")); reflexivity|].
  split; [apply (scalar_passes_through (VInt 42)); reflexivity|].
  split; [apply (scalar_passes_through (VFloat "1.5")); reflexivity|].
  split; [apply (scalar_passes_through (VBool true)); reflexivity|].
  split; [apply (scalar_passes_through VNone); reflexivity|].
  split; [apply (scalar_passes_through (VBytes "raw")); reflexivity|].
  apply (scalar_passes_through VEllipsis); reflexivity.
Defined.

(** C9: a tuple is returned as it is, whatever it holds, and only a list
    gives a list built item by item: when the serialiser returns a list,
    its input was a list, and the items of the result are the serialised
    items of the input. *)
Theorem only_lists_are_mapped :
  (forall items, ast_to_dict (VTuple items) = Ok (VTuple items))
  /\ (forall v, is_AST v = false -> is_list v = false -> ast_to_dict v = Ok v)
  /\ (forall v items',
        ast_to_dict v = Ok (VList items') ->
        exists items,
          v = VList items
          /\ Forall2 (fun x y => ast_to_dict x = Ok y) items items').
Proof.
  split; [reflexivity|]. split; [apply ast_to_dict_other|].
  intros v items' H. destruct v as [a|l|l|d|cls fs ats attrs];
    try discriminate H.
  - exists l. split; [reflexivity|]. rewrite ast_to_dict_list in H.
    destruct (comprehension ast_to_dict l) as [ys|e] eqn:E; simpl in H;
      [|discriminate].
    inversion H; subst. now apply comprehension_Forall2.
  - rewrite ast_to_dict_node in H.
    destruct (store_each _ fs _) as [res|e]; simpl in H; [|discriminate].
    destruct (store_each _ ats res) as [res'|e]; simpl in H; discriminate.
Qed.

(** ** Absent attributes and absent fields *)

(** C10: the default [None] is for attributes only.  When a declared
    name is absent on a node: if it is a field, the serialiser raises an
    [AttributeError]; if it is an attribute, and the fields are present,
    the serialiser returns a mapping that holds [None] under that name. *)
Theorem default_for_attributes_only cls fs ats attrs name :
  lookup attrs name = None ->
  (In name fs ->
     exists c n, ast_to_dict (VAST cls fs ats attrs) = Raise (AttributeError c n))
  /\ (In name ats ->
      fields_present (VAST cls fs ats attrs) = true ->
      exists entries,
        ast_to_dict (VAST cls fs ats attrs) = Ok (VDict entries)
        /\ lookup entries name = Some VNone).
Proof.
  intros Habs. split.
  - intros Hin.
    destruct (ast_to_dict (VAST cls fs ats attrs)) as [d|e] eqn:E.
    + assert (fields_present (VAST cls fs ats attrs) = true) as Hp.
      { apply ast_to_dict_returns. now exists d. }
      simpl in Hp. apply andb_true_iff in Hp. destruct Hp as [Hp _].
      rewrite forallb_forall in Hp. specialize (Hp name Hin).
      rewrite getattr_then_lookup, Habs in Hp. discriminate Hp.
    + destruct (ast_to_dict_raises _ _ E) as [c [n ->]]. now exists c, n.
  - intros Hin Hp. apply ast_to_dict_returns in Hp. destruct Hp as [d Hd].
    rewrite ast_to_dict_node in Hd |- *.
    destruct (store_each _ fs _) as [res|e]; simpl in Hd |- *;
      [|discriminate].
    destruct (store_each _ ats res) as [res'|e] eqn:E2; simpl in Hd |- *;
      [|discriminate].
    exists res'. split; [reflexivity|].
    apply (store_each_lookup _ _ _ _ _ _ E2 Hin).
    unfold getattr_default. now rewrite Habs.
Qed.

Lemma default_for_attributes_only_witness :
  (exists c n, ast_to_dict name_without_id = Raise (AttributeError c n))
  /\ (exists entries,
        ast_to_dict name_without_position = Ok (VDict entries)
        /\ lookup entries "lineno" = Some VNone).
Proof.
  split.
  - apply (default_for_attributes_only "Name" ["id"; "ctx"] located
             [("ctx", Load)] "id"); [reflexivity | simpl; auto].
  - apply (default_for_attributes_only "Name" ["id"; "ctx"] located
             [("id", VStr "x"); ("ctx", Load)] "lineno");
      [reflexivity | simpl; auto | reflexivity].
Defined.

(** * Properties of the script *)

(** ** The encoder *)

Lemma gen_then_ok g1 g2 :
  snd (g1 +++ g2) = None <-> snd g1 = None /\ snd g2 = None.
Proof.
  destruct g1 as [s1 [e1|]], g2 as [s2 e2]; simpl; split;
    try discriminate; try tauto.
Qed.

Lemma encode_items_ok encode separator buf l :
  snd (encode_items encode separator buf l) = None <->
  Forall (fun x => snd (encode x) = None) l.
Proof.
  revert buf. induction l as [|x rest IH]; intros buf; simpl.
  - split; [constructor | reflexivity].
  - rewrite !gen_then_ok, IH, Forall_cons_iff. reflexivity.
Qed.

Lemma encode_entries_ok encode separator buf l :
  snd (encode_entries encode separator buf l) = None <->
  Forall (fun kv => snd (encode (snd kv)) = None) l.
Proof.
  revert buf. induction l as [|[k x] rest IH]; intros buf; simpl.
  - split; [constructor | reflexivity].
  - rewrite !gen_then_ok, IH, Forall_cons_iff. reflexivity.
Qed.

(** The encoder runs to its end exactly on the values JSON can hold. *)
Lemma iterencode_json_ok indent o level :
  snd (iterencode indent o level) = None <-> json_ok o = true.
Proof.
  revert level.
  induction o as [a|items IH|items IH|entries IH|cls fs ats attrs IH]
    using value_ind'; intros level.
  - destruct a as [| [|] | | | | | |]; simpl; split;
      (reflexivity || discriminate).
  - destruct items as [|x rest]; [simpl; tauto|].
    cbn [iterencode json_ok]. rewrite !gen_then_ok, encode_items_ok.
    rewrite forallb_forall, Forall_forall. rewrite Forall_forall in IH.
    simpl snd. split.
    + intros [H _] y Hy. apply (IH y Hy (S level)). now apply H.
    + intros H. split; [|auto]. intros y Hy. apply IH; auto.
  - destruct items as [|x rest]; [simpl; tauto|].
    cbn [iterencode json_ok]. rewrite !gen_then_ok, encode_items_ok.
    rewrite forallb_forall, Forall_forall. rewrite Forall_forall in IH.
    simpl snd. split.
    + intros [H _] y Hy. apply (IH y Hy (S level)). now apply H.
    + intros H. split; [|auto]. intros y Hy. apply IH; auto.
  - destruct entries as [|kx rest]; [simpl; tauto|].
    cbn [iterencode json_ok]. rewrite !gen_then_ok, encode_entries_ok.
    rewrite forallb_forall, Forall_forall. rewrite Forall_forall in IH.
    simpl snd. split.
    + intros [_ [H _]] [k y] Hy. apply (IH (k, y) Hy (S level)).
      now apply (H (k, y)).
    + intros H. split; [reflexivity|]. split; [|auto].
      intros [k y] Hy. apply (IH (k, y) Hy). now apply (H (k, y)).
  - simpl. split; discriminate.
Qed.

(** Such characters, the bytes of non-ASCII text among them, are written
    as they are. *)
Lemma escape_plain s :
  forallb plain_char (list_ascii_of_string s) = true -> escape s = s.
Proof.
  induction s as [|c s IH]; simpl; [reflexivity|].
  rewrite andb_true_iff. intros [Hc Hs]. rewrite (IH Hs).
  unfold plain_char in Hc. rewrite !andb_true_iff, !negb_true_iff in Hc.
  destruct Hc as [[H32 H34] H92]. apply Nat.leb_le in H32.
  unfold escape_char. rewrite H92, H34.
  repeat match goal with
         | |- context [(?n =? ?k)%nat] =>
             replace (n =? k)%nat with false
               by (symmetry; apply Nat.eqb_neq; lia)
         end.
  replace (nat_of_ascii c <? 32)%nat with false
    by (symmetry; apply Nat.ltb_ge; lia).
  reflexivity.
Qed.

(** The two bytes of the letter e with an acute accent, between quotes:
    not escaped. *)
Example encode_non_ascii :
  encode_basestring (String "195" (String "169" "")) =
    (dquote ++ String "195" (String "169" "") ++ dquote)%string.
Proof. reflexivity. Qed.

(** ** The usage error *)

(** C6: run with no argument, or with two or more, the script prints the
    usage line on standard error, writes nothing on standard output and
    exits with status 1. *)
Theorem usage_error w prog args :
  List.length args <> 1%nat ->
  main w (prog :: args) =
    {| stdout := "";
       stderr := (("Usage: python " ++ prog ++ " <python_source_file>")
                  ++ newline)%string;
       uncaught := None;
       status := 1 |}.
Proof.
  intros Hlen. destruct args as [|a [|b rest]]; try reflexivity.
  exfalso. apply Hlen. reflexivity.
Qed.

Lemma usage_error_witness :
  main one_world ["py2ast.py"] =
    {| stdout := "";
       stderr := ("Usage: python py2ast.py <python_source_file>"
                  ++ newline)%string;
       uncaught := None;
       status := 1 |}
  /\ main one_world ["py2ast.py"; "one.py"; "two.py"] =
       {| stdout := "";
          stderr := ("Usage: python py2ast.py <python_source_file>"
                     ++ newline)%string;
          uncaught := None;
          status := 1 |}.
Proof.
  split.
  - apply (usage_error one_world "py2ast.py" []). simpl. lia.
  - apply (usage_error one_world "py2ast.py" ["one.py"; "two.py"]).
    simpl. lia.
Defined.

(** ** Documents that can be written *)

Lemma setitem_entries {A} (d : list (string * A)) k v k' v' :
  In (k', v') (setitem d k v) -> In (k', v') d \/ (k' = k /\ v' = v).
Proof.
  induction d as [|[k0 v0] rest IH]; simpl.
  - intros [[= <- <-]|[]]. now right.
  - destruct (String.eqb k0 k) eqn:E; simpl.
    + apply String.eqb_eq in E. subst k0.
      intros [[= <- <-]|H]; [now right | left; now right].
    + intros [H|H]; [left; now left|].
      destruct (IH H) as [H'|H']; [left; now right | now right].
Qed.

(** Every entry after the loop was there before it or was stored by it. *)
Lemma store_each_entries get names res res' k v :
  store_each get names res = Ok res' ->
  In (k, v) res' -> In (k, v) res \/ (In k names /\ get k = Ok v).
Proof.
  revert res. induction names as [|n rest IH]; intros res; simpl.
  - intros [= <-]. now left.
  - destruct (get n) as [vn|e] eqn:E; simpl; [|discriminate].
    intros Hs Hin. destruct (IH _ Hs Hin) as [H|[H1 H2]].
    + destruct (setitem_entries _ _ _ _ _ H) as [H'|[-> ->]];
        [now left | right; auto].
    + right. auto.
Qed.

(** The document of an encodable tree can be written as JSON. *)
Lemma encodable_json_ok v d :
  ast_to_dict v = Ok d -> encodable v = true -> json_ok d = true.
Proof.
  revert d.
  induction v as [a|items IH|items IH|entries IH|cls fs ats attrs IH]
    using value_ind'; intros d; try (intros [= <-]; exact (fun H => H)).
  - rewrite ast_to_dict_list.
    destruct (comprehension ast_to_dict items) as [ys|e] eqn:E; simpl;
      [|discriminate].
    intros [= <-]. apply comprehension_Forall2 in E. simpl.
    rewrite !forallb_forall. rewrite Forall_forall in IH.
    intros He y Hy. apply Forall2_flip in E.
    apply In_nth_error in Hy. destruct Hy as [i Hi].
    destruct (Forall2_nth_error_l _ _ _ _ _ E Hi) as [x [Hx Hxy]].
    apply nth_error_In in Hx. apply (IH x Hx y Hxy). now apply He.
  - rewrite ast_to_dict_node. rewrite Forall_forall in IH.
    destruct (store_each _ fs _) as [res|e] eqn:E1; simpl; [|discriminate].
    destruct (store_each _ ats res) as [res'|e] eqn:E2; simpl;
      [|discriminate].
    intros [= <-]. simpl. rewrite !forallb_forall. intros He [k x] Hin.
    assert (forall n v dv, lookup attrs n = Some v -> In n (fs ++ ats) ->
                           ast_to_dict v = Ok dv -> json_ok dv = true) as K.
    { intros n v dv Hl Hn Hs.
      apply (IH (n, v) (lookup_In _ _ _ Hl) dv Hs). specialize (He n Hn).
      rewrite getattr_then_lookup, Hl in He. exact He. }
    destruct (store_each_entries _ _ _ _ _ _ E2 Hin) as [H|[Hk Hg]].
    + destruct (store_each_entries _ _ _ _ _ _ E1 H) as [H'|[Hk Hg]].
      * destruct H' as [[= <- <-]|[]]. reflexivity.
      * unfold getattr in Hg.
        destruct (lookup attrs k) as [v|] eqn:El; simpl in Hg;
          [|discriminate].
        apply (K k v x El); [apply in_or_app; now left | exact Hg].
    + unfold getattr_default in Hg.
      destruct (lookup attrs k) as [v|] eqn:El.
      * apply (K k v x El); [apply in_or_app; now right | exact Hg].
      * now inversion Hg.
Qed.

(** ** What a run leaves behind *)

(** A run on a readable file whose tree has its fields and can be encoded
    writes the whole document and ends with status 0. *)
Lemma run_writes_document w prog path source tree :
  read_text w path "utf-8" = Ok source ->
  ast_parse w source path "exec" true = Ok tree ->
  fields_present tree = true ->
  encodable tree = true ->
  exists doc text,
    ast_to_dict tree = Ok doc
    /\ iterencode 2 doc 0 = (text, None)
    /\ main w [prog; path] =
         {| stdout := text; stderr := ""; uncaught := None; status := 0 |}.
Proof.
  intros Hr Hp Hf He. apply ast_to_dict_returns in Hf.
  destruct Hf as [doc Hdoc]. exists doc, (fst (iterencode 2 doc 0)).
  pose proof (encodable_json_ok _ _ Hdoc He) as Hj.
  apply (iterencode_json_ok 2 doc 0) in Hj.
  split; [exact Hdoc|].
  unfold main, script, io_bind, argv_at, lift, json_dump. simpl.
  rewrite Hr, Hp, Hdoc.
  destruct (iterencode 2 doc 0) as [text e]. simpl in *. subst e.
  split; reflexivity.
Qed.


Lemma run_writes_document_on_x_is_1 :
  exists doc text,
    ast_to_dict module_x_is_1 = Ok doc
    /\ iterencode 2 doc 0 = (text, None)
    /\ main one_world ["py2ast.py"; "one.py"] =
         {| stdout := text; stderr := ""; uncaught := None; status := 0 |}.
Proof.
  apply (run_writes_document one_world "py2ast.py" "one.py"
           ("x = 1" ++ newline)%string module_x_is_1); reflexivity.
Defined.

(** The document of [x = 1]: the body of the module is a list of one
    item, whose [_type] is [Assign]. *)
Example document_of_x_is_1 :
  exists entries assign,
    ast_to_dict module_x_is_1 = Ok (VDict entries)
    /\ lookup entries "body" = Some (VList [VDict assign])
    /\ lookup assign "_type" = Some (VStr "Assign").
Proof. do 2 eexists. repeat split. Qed.

(** The document of the empty program: the module with empty lists. *)
Example document_of_empty_program :
  ast_to_dict (Module []) =
    Ok (VDict [("_type", VStr "Module"); ("body", VList []);
               ("type_ignores", VList [])]).
Proof. reflexivity. Qed.

(** C7, at the source text [...]: the file is read and parsed, the
    encoder writes the document up to the constant [Ellipsis] and raises
    there; the text before the constant is on standard output and the
    status is 1. *)
Theorem partial_output_on_ellipsis :
  main stub_world ["py2ast.py"; "stub.py"] =
    {| stdout :=
         lines ["{";
                "  " ++ quoted "_type" ++ ": " ++ quoted "Module" ++ ",";
                "  " ++ quoted "body" ++ ": [";
                "    {";
                "      " ++ quoted "_type" ++ ": " ++ quoted "Expr" ++ ",";
                "      " ++ quoted "value" ++ ": {";
                "        " ++ quoted "_type" ++ ": " ++ quoted "Constant"
                  ++ ",";
                "        " ++ quoted "value" ++ ": "]%string;
       stderr := "";
       uncaught := Some (TypeError "ellipsis");
       status := 1 |}.
Proof. reflexivity. Qed.

(** C8, at the source text [...]: the one argument names a readable file
    with a valid program, the serialiser returns its document, and the
    run ends on an uncaught [TypeError] with status 1, not 0. *)
Theorem valid_file_fails_on_ellipsis :
  read_text stub_world "stub.py" "utf-8" = Ok ("..." ++ newline)%string
  /\ ast_parse stub_world ("..." ++ newline)%string "stub.py" "exec" true =
       Ok module_ellipsis
  /\ (exists doc, ast_to_dict module_ellipsis = Ok doc /\ json_ok doc = false)
  /\ uncaught (main stub_world ["py2ast.py"; "stub.py"]) =
       Some (TypeError "ellipsis")
  /\ status (main stub_world ["py2ast.py"; "stub.py"]) = 1%Z.
Proof.
  split; [reflexivity|]. split; [reflexivity|]. split.
  - eexists. split; reflexivity.
  - split; reflexivity.
Qed.

(** * The shape of the document *)

Lemma atom_eqb_refl a : atom_eqb a a = true.
Proof.
  destruct a; simpl; auto using String.eqb_refl, Z.eqb_refl, Bool.eqb_reflx.
Qed.

Lemma list_eqb_refl (l : list string) : list_eqb String.eqb l l = true.
Proof.
  induction l as [|x l IH]; simpl; [reflexivity|].
  now rewrite String.eqb_refl, IH.
Qed.

Lemma pairwise_Forall2 {A B} (check : A -> B -> bool) l l' :
  pairwise check l l' = true <-> Forall2 (fun x y => check x y = true) l l'.
Proof.
  revert l'. induction l as [|x l IH]; intros [|y l']; simpl.
  - split; [constructor | reflexivity].
  - split; [discriminate | intros H; inversion H].
  - split; [discriminate | intros H; inversion H].
  - rewrite andb_true_iff, IH. split.
    + intros [H1 H2]. now constructor.
    + intros H. inversion H. auto.
Qed.

Lemma Forall2_diag {A} (R : A -> A -> Prop) l :
  Forall (fun x => R x x) l -> Forall2 R l l.
Proof. induction 1; now constructor. Qed.

Lemma value_eqb_refl v : value_eqb v v = true.
Proof.
  induction v as [a|items IH|items IH|entries IH|cls fs ats attrs IH]
    using value_ind'; cbn [value_eqb].
  - apply atom_eqb_refl.
  - apply pairwise_Forall2, Forall2_diag, IH.
  - apply pairwise_Forall2, Forall2_diag, IH.
  - apply pairwise_Forall2, Forall2_diag.
    eapply Forall_impl; [|exact IH]. intros [k x] H. simpl in *.
    now rewrite String.eqb_refl.
  - rewrite String.eqb_refl, !list_eqb_refl. simpl.
    apply pairwise_Forall2, Forall2_diag.
    eapply Forall_impl; [|exact IH]. intros [k x] H. simpl in *.
    now rewrite String.eqb_refl.
Qed.

(** Walking the document of a tree beside the tree finds no difference,
    when the names on every node are distinct. *)
Lemma walk_document tree :
  forall doc,
    names_distinct tree = true ->
    ast_to_dict tree = Ok doc ->
    walk tree doc = true.
Proof.
  induction tree as [a|items IH|items IH|entries IH|cls fs ats attrs IH]
    using value_ind'; intros doc Hn Hs;
    try (inversion Hs; subst; apply value_eqb_refl).
  - (* a list *)
    rewrite ast_to_dict_list in Hs.
    destruct (comprehension ast_to_dict items) as [ys|e] eqn:E;
      simpl in Hs; [|discriminate].
    inversion Hs; subst doc. clear Hs. apply comprehension_Forall2 in E.
    cbn [walk]. apply pairwise_Forall2.
    simpl in Hn. rewrite forallb_forall in Hn. rewrite Forall_forall in IH.
    clear - E IH Hn. induction E as [|x y l l' Hxy _ IHE]; constructor.
    + apply IH; [now left | apply Hn; now left | exact Hxy].
    + apply IHE.
      * intros z Hz. apply IH. now right.
      * intros z Hz. apply Hn. now right.
  - (* a node *)
    assert (fields_present (VAST cls fs ats attrs) = true) as Hp.
    { apply ast_to_dict_returns. now exists doc. }
    cbn [names_distinct] in Hn. apply andb_true_iff in Hn.
    destruct Hn as [Hd Hn]. rewrite forallb_forall in Hn.
    destruct (node_entries cls fs ats attrs Hp Hd)
      as [fvals [avals [Heq [Hf Ha]]]].
    rewrite Heq in Hs. inversion Hs; subst doc. clear Hs Heq.
    rewrite Forall_forall in IH.
    assert (forall n v d, In n (fs ++ ats) -> lookup attrs n = Some v ->
              ast_to_dict v = Ok d -> walk v d = true) as K.
    { intros n v d Hin Hl Hv. apply (IH (n, v) (lookup_In _ _ _ Hl)).
      - specialize (Hn n Hin). rewrite getattr_then_lookup, Hl in Hn.
        exact Hn.
      - exact Hv. }
    set (entries := ("_type", VStr cls)
                    :: combine fs fvals ++ combine ats avals).
    assert (map fst entries = "_type" :: fs ++ ats) as Hkeys.
    { unfold entries. simpl. rewrite map_app, !map_fst_combine;
        [reflexivity | exact (Forall2_length Ha) | exact (Forall2_length Hf)]. }
    assert (NoDup (map fst entries)) as Hnd.
    { rewrite Hkeys. now apply distinct_NoDup. }
    cbn [walk]. rewrite Hkeys, list_eqb_refl.
    replace (lookup entries "_type") with (Some (VStr cls)) by reflexivity.
    rewrite value_eqb_refl. cbn [andb].
    apply andb_true_iff. split; apply forallb_forall; intros n Hin;
      cbv beta.
    + destruct (Forall2_In_combine _ _ _ _ Hf Hin) as [d [Hd1 [v [Hl Hv]]]].
      rewrite getattr_then_lookup, Hl. cbn [option_map].
      rewrite (lookup_NoDup entries n d Hnd).
      * apply (K n v d); [apply in_or_app; now left | exact Hl | exact Hv].
      * right. apply in_or_app. now left.
    + destruct (Forall2_In_combine _ _ _ _ Ha Hin) as [d [Hd1 Hd2]].
      rewrite (lookup_NoDup entries n d Hnd).
      2:{ right. apply in_or_app. now right. }
      rewrite getattr_then_lookup.
      destruct (lookup attrs n) as [v|] eqn:Hl; cbn [option_map].
      * apply (K n v d); [apply in_or_app; now right | exact Hl | exact Hd2].
      * subst d. reflexivity.
Qed.

(** C5 as stated fails on a node whose class declares a field called
    [_type]: the mapping holds the field's value under [_type], not the
    class name, and the walk finds the difference. *)
Lemma document_mirrors_tree_counterexample :
  ast_to_dict weird = Ok (VDict [("_type", VStr "x")])
  /\ walk weird (VDict [("_type", VStr "x")]) = false.
Proof. split; reflexivity. Qed.

(** * The serialiser on the heap and on trees *)

(** ** The heap *)

Lemma all2_Forall2 {A B} (R : A -> B -> Prop) l1 l2 :
  all2 R l1 l2 <-> Forall2 R l1 l2.
Proof.
  revert l2. induction l1 as [|x l1 IH]; intros [|y l2]; simpl.
  - split; [constructor | trivial].
  - split; [intros [] | intros H; inversion H].
  - split; [intros [] | intros H; inversion H].
  - rewrite IH. split.
    + intros [H1 H2]. now constructor.
    + intros H. inversion H. auto.
Qed.

Lemma all2_impl {A B} (R R' : A -> B -> Prop) l1 l2 :
  Forall (fun x => forall y, R x y -> R' x y) l1 ->
  all2 R l1 l2 -> all2 R' l1 l2.
Proof.
  intros HF. revert l2. induction HF as [|x l1 Hx _ IH]; intros [|y l2];
    simpl; try tauto.
  intros [H1 H2]. split; [now apply Hx | now apply IH].
Qed.

Lemma update_length h l o : List.length (update h l o) = List.length h.
Proof.
  revert l. induction h as [|x h IH]; intros [|l]; simpl; auto.
Qed.

Lemma nth_error_update_same h l o :
  (l < List.length h)%nat -> nth_error (update h l o) l = Some o.
Proof.
  revert l. induction h as [|x h IH]; intros [|l]; simpl; try lia.
  - reflexivity.
  - intros H. apply IH. lia.
Qed.

Lemma nth_error_update_other h l l' o :
  l <> l' -> nth_error (update h l o) l' = nth_error h l'.
Proof.
  revert l l'. induction h as [|x h IH]; intros [|l] [|l'] Hne; simpl;
    try reflexivity; try congruence.
  apply IH. congruence.
Qed.

Lemma nth_error_valid {A} (l : list A) i x :
  nth_error l i = Some x -> (i < List.length l)%nat.
Proof. intros H. apply nth_error_Some. congruence. Qed.

Lemma extends_refl h : extends h h.
Proof. split; auto. Qed.

Lemma extends_trans h1 h2 h3 : extends h1 h2 -> extends h2 h3 -> extends h1 h3.
Proof.
  intros [L1 H1] [L2 H2]. split; [lia|].
  intros l Hl. rewrite H2, H1; auto. lia.
Qed.

Lemma extends_alloc h o : extends h (snd (alloc o h)).
Proof.
  split; simpl.
  - rewrite length_app. simpl. lia.
  - intros l Hl. now apply nth_error_app1.
Qed.

Lemma nth_error_alloc h o : nth_error (snd (alloc o h)) (fst (alloc o h)) = Some o.
Proof.
  simpl. rewrite nth_error_app2, Nat.sub_diag; [reflexivity | lia].
Qed.

Lemma alloc_length h o :
  List.length (snd (alloc o h)) = S (List.length h).
Proof. simpl. rewrite length_app. simpl. lia. Qed.

(** ** Values on the heap *)

(** A value held at addresses in [P] is held at addresses in [Q] on any
    heap that has the same objects there. *)
Lemma rep_transfer (P Q : loc -> Prop) h h' v :
  (forall x o, P x -> nth_error h x = Some o ->
               Q x /\ nth_error h' x = Some o) ->
  forall l, rep P h v l -> rep Q h' v l.
Proof.
  intros HT.
  induction v as [a|items IH|items IH|entries IH|cls fs ats attrs IH]
    using value_ind'; intros l; cbn [rep].
  - intros [HP Hl]. destruct (HT _ _ HP Hl). auto.
  - intros [HP [ls [Hl Hall]]]. destruct (HT _ _ HP Hl) as [HQ Hl'].
    split; [exact HQ|]. exists ls. split; [exact Hl'|].
    revert Hall. apply all2_impl. exact IH.
  - intros [HP [ls [Hl Hall]]]. destruct (HT _ _ HP Hl) as [HQ Hl'].
    split; [exact HQ|]. exists ls. split; [exact Hl'|].
    revert Hall. apply all2_impl. exact IH.
  - intros [HP [es [Hl Hall]]]. destruct (HT _ _ HP Hl) as [HQ Hl'].
    split; [exact HQ|]. exists es. split; [exact Hl'|].
    revert Hall. apply all2_impl.
    eapply Forall_impl; [|exact IH]. intros [k x] Hx e [Hk Hr].
    split; [exact Hk | now apply Hx].
  - intros [HP [es [Hl Hall]]]. destruct (HT _ _ HP Hl) as [HQ Hl'].
    split; [exact HQ|]. exists es. split; [exact Hl'|].
    revert Hall. apply all2_impl.
    eapply Forall_impl; [|exact IH]. intros [k x] Hx e [Hk Hr].
    split; [exact Hk | now apply Hx].
Qed.

Lemma rep_impl (P Q : loc -> Prop) h v l :
  (forall x, P x -> Q x) -> rep P h v l -> rep Q h v l.
Proof. intros H. apply rep_transfer. intros x o HP Hx. auto. Qed.

(** The addresses of a value on the heap are addresses of the heap. *)
Lemma rep_valid (P : loc -> Prop) h v l :
  rep P h v l -> rep (fun x => P x /\ (x < List.length h)%nat) h v l.
Proof.
  apply rep_transfer. intros x o HP Hx. split; [|exact Hx].
  split; [exact HP | exact (nth_error_valid _ _ _ Hx)].
Qed.

Lemma rep_extends (P : loc -> Prop) h h' v l :
  extends h h' -> rep P h v l -> rep P h' v l.
Proof.
  intros [_ He]. apply rep_transfer. intros x o HP Hx.
  split; [exact HP|]. rewrite He; [exact Hx|].
  exact (nth_error_valid _ _ _ Hx).
Qed.

(** Changing an object outside [P] leaves the value as it is. *)
Lemma rep_update (P : loc -> Prop) h v l res o :
  ~ P res -> rep P h v l -> rep P (update h res o) v l.
Proof.
  intros Hn. apply rep_transfer. intros x ox HP Hx.
  split; [exact HP|]. rewrite nth_error_update_other; [exact Hx|].
  intros ->. contradiction.
Qed.

Lemma rep_dict P h d l :
  rep P h (VDict d) l <->
  P l /\ exists es, nth_error h l = Some (ODict es)
                    /\ Forall2 (entry_rep P h) d es.
Proof.
  cbn [rep]. split; intros [HP [es [Hl H]]]; (split; [exact HP|]);
    exists es; (split; [exact Hl|]).
  - apply all2_Forall2. revert H. apply all2_impl.
    apply Forall_forall. intros [k x] _ e H. exact H.
  - apply all2_Forall2 in H. revert H. apply all2_impl.
    apply Forall_forall. intros [k x] _ e H. exact H.
Qed.

Lemma rep_ast P h cls fs ats attrs l :
  rep P h (VAST cls fs ats attrs) l <->
  P l /\ exists es, nth_error h l = Some (OAST cls fs ats es)
                    /\ Forall2 (entry_rep P h) attrs es.
Proof.
  cbn [rep]. split; intros [HP [es [Hl H]]]; (split; [exact HP|]);
    exists es; (split; [exact Hl|]).
  - apply all2_Forall2. revert H. apply all2_impl.
    apply Forall_forall. intros [k x] _ e H. exact H.
  - apply all2_Forall2 in H. revert H. apply all2_impl.
    apply Forall_forall. intros [k x] _ e H. exact H.
Qed.

Lemma rep_list P h vs l :
  rep P h (VList vs) l <->
  P l /\ exists ls, nth_error h l = Some (OList ls)
                    /\ Forall2 (rep P h) vs ls.
Proof.
  cbn [rep]. split; intros [HP [ls [Hl H]]]; (split; [exact HP|]);
    exists ls; (split; [exact Hl|]); now apply all2_Forall2.
Qed.

Lemma entry_rep_setitem P h ds es k d r :
  Forall2 (entry_rep P h) ds es -> rep P h d r ->
  Forall2 (entry_rep P h) (setitem ds k d) (setitem es k r).
Proof.
  intros H Hr. induction H as [|[k1 v1] [k2 c2] ds es [Hk Hv] H IH]; simpl.
  - constructor; [split; auto | constructor].
  - simpl in Hk. subst k2. destruct (String.eqb k1 k).
    + constructor; [split; auto | exact H].
    + constructor; [split; auto | exact IH].
Qed.

Lemma entry_rep_lookup P h ds es k :
  Forall2 (entry_rep P h) ds es ->
  match lookup ds k, lookup es k with
  | Some v, Some c => rep P h v c
  | None, None => True
  | _, _ => False
  end.
Proof.
  induction 1 as [|[k1 v1] [k2 c2] ds es [Hk Hv] _ IH]; simpl; [trivial|].
  simpl in Hk. subst k2. now destruct (String.eqb k1 k).
Qed.

Lemma agree_extends base h0 hc hc' :
  agree base h0 hc -> extends hc hc' -> agree base h0 hc'.
Proof.
  intros [L A] [L' E]. split; [lia|].
  intros l Hl. rewrite E, A; auto. lia.
Qed.

Lemma rep_agree base h0 hc v l :
  agree base h0 hc ->
  rep (fun x => (x < base)%nat) h0 v l ->
  rep (fun x => (x < base)%nat) hc v l.
Proof.
  intros [_ A]. apply rep_transfer. intros x o Hx Ho.
  split; [exact Hx|]. now rewrite A.
Qed.

(** ** The dictionaries and lists of a value *)

Lemma flat2_Forall {A B C} (R : A -> B -> Prop) (Q : C -> Prop)
  (f : A -> B -> list C) l1 l2 :
  Forall2 R l1 l2 ->
  (forall x y, In x l1 -> R x y -> Forall Q (f x y)) ->
  Forall Q (flat2 f l1 l2).
Proof.
  induction 1 as [|x y l1 l2 Hxy _ IH]; intros Hf; simpl; [constructor|].
  apply Forall_app. split.
  - apply Hf; [now left | exact Hxy].
  - apply IH. intros x' y' Hx'. apply Hf. now right.
Qed.

Lemma flat2_ext {A B C} (R : A -> B -> Prop) (f g : A -> B -> list C) l1 l2 :
  Forall2 R l1 l2 ->
  (forall x y, In x l1 -> R x y -> f x y = g x y) ->
  flat2 f l1 l2 = flat2 g l1 l2.
Proof.
  induction 1 as [|x y l1 l2 Hxy _ IH]; intros Hf; simpl; [reflexivity|].
  rewrite (Hf x y (or_introl eq_refl) Hxy), IH; [reflexivity|].
  intros x' y' Hx'. apply Hf. now right.
Qed.

Lemma flat2_snoc {A B C} (R : A -> B -> Prop) (f : A -> B -> list C)
  l1 l2 x y :
  Forall2 R l1 l2 ->
  flat2 f (l1 ++ [x]) (l2 ++ [y]) = flat2 f l1 l2 ++ f x y.
Proof.
  induction 1 as [|a b l1 l2 _ _ IH]; simpl.
  - now rewrite app_nil_r.
  - now rewrite IH, app_assoc.
Qed.

Lemma filter_flat2 {A B C} (p : C -> bool) (f : A -> B -> list C) l1 l2 :
  filter p (flat2 f l1 l2) = flat2 (fun x y => filter p (f x y)) l1 l2.
Proof.
  revert l2. induction l1 as [|x l1 IH]; intros [|y l2]; simpl;
    try reflexivity.
  now rewrite filter_app, IH.
Qed.

Lemma containers_dict h ds es l :
  nth_error h l = Some (ODict es) ->
  containers h (VDict ds) l =
    l :: flat2 (fun kv e => containers h (snd kv) (snd e)) ds es.
Proof.
  intros Hl. cbn [containers]. rewrite Hl. f_equal.
  clear. revert es. induction ds as [|[k v] ds IH]; intros [|e es]; simpl;
    try reflexivity. now rewrite IH.
Qed.

Lemma containers_list h vs ls l :
  nth_error h l = Some (OList ls) ->
  containers h (VList vs) l = l :: flat2 (containers h) vs ls.
Proof. intros Hl. cbn [containers]. now rewrite Hl. Qed.

(** A computation that does more does what is asked. *)
Lemma returns_like_weaken (b b' : bool) base h0 run t :
  (b' = true -> b = true) ->
  returns_like b base h0 run t -> returns_like b' base h0 run t.
Proof.
  intros Hb H hc Hag. specialize (H hc Hag).
  destruct t as [d|e]; [|exact H].
  destruct H as [r [hc' [Hrun [Hext [Hrep [Hnd Hpl]]]]]].
  exists r, hc'. auto 10.
Qed.

(** The dictionaries and lists that the entries of a dictionary have made,
    entry after entry. *)
Lemma made_dict n h ds es l :
  nth_error h l = Some (ODict es) ->
  made n h (VDict ds) l =
    (if (n <=? l)%nat then [l] else [])
    ++ flat2 (fun kv e => made n h (snd kv) (snd e)) ds es.
Proof.
  intros Hl. unfold made. cbn [containers]. rewrite Hl. cbn [filter].
  rewrite filter_flat2.
  assert (flat2 (fun (kv : string * value) (e : string * loc) =>
                   filter (fun x => (n <=? x)%nat)
                     ((let (_, x) := kv in containers h x) (snd e))) ds es =
          flat2 (fun kv e =>
                   filter (fun x => (n <=? x)%nat)
                     (containers h (snd kv) (snd e))) ds es) as ->.
  { clear. revert es. induction ds as [|[k v] ds IH]; intros [|e es]; simpl;
      try reflexivity. now rewrite IH. }
  now destruct (n <=? l)%nat.
Qed.

Lemma made_list n h vs ls l :
  nth_error h l = Some (OList ls) ->
  made n h (VList vs) l =
    (if (n <=? l)%nat then [l] else []) ++ flat2 (made n h) vs ls.
Proof.
  intros Hl. unfold made. cbn [containers]. rewrite Hl. cbn [filter].
  rewrite filter_flat2. now destruct (n <=? l)%nat.
Qed.

(** The walk along a value meets addresses of the value only. *)
Lemma containers_visited P h v :
  forall l, rep P h v l ->
            Forall (fun x => P x /\ (x < List.length h)%nat) (containers h v l).
Proof.
  induction v as [a|items IH|items IH|entries IH|cls fs ats attrs IH]
    using value_ind'; intros l Hr; cbn [containers]; try constructor.
  - apply rep_list in Hr. destruct Hr as [HP [ls [Hl Hall]]].
    split; [exact HP | exact (nth_error_valid _ _ _ Hl)].
  - apply rep_list in Hr. destruct Hr as [HP [ls [Hl Hall]]]. rewrite Hl.
    apply (flat2_Forall _ _ _ _ _ Hall). rewrite Forall_forall in IH.
    intros x c Hx. now apply IH.
  - apply rep_dict in Hr. destruct Hr as [HP [es [Hl Hall]]].
    split; [exact HP | exact (nth_error_valid _ _ _ Hl)].
  - apply rep_dict in Hr. destruct Hr as [HP [es [Hl Hall]]]. rewrite Hl.
    apply (flat2_Forall _ _ _ _ _ Hall). rewrite Forall_forall in IH.
    intros [k x] [k' c] Hx [_ Hxc]. now apply (IH (k, x) Hx).
Qed.

(** The walk is the same on a heap that has the same objects at the
    addresses of the value. *)
Lemma containers_transfer P h h' v :
  (forall x o, P x -> nth_error h x = Some o -> nth_error h' x = Some o) ->
  forall l, rep P h v l -> containers h' v l = containers h v l.
Proof.
  intros HT.
  induction v as [a|items IH|items IH|entries IH|cls fs ats attrs IH]
    using value_ind'; intros l Hr; cbn [containers]; try reflexivity.
  - apply rep_list in Hr. destruct Hr as [HP [ls [Hl Hall]]].
    rewrite Hl, (HT _ _ HP Hl). f_equal.
    apply (flat2_ext _ _ _ _ _ Hall). rewrite Forall_forall in IH.
    intros x c Hx. now apply IH.
  - apply rep_dict in Hr. destruct Hr as [HP [es [Hl Hall]]].
    rewrite Hl, (HT _ _ HP Hl). f_equal.
    apply (flat2_ext _ _ _ _ _ Hall). rewrite Forall_forall in IH.
    intros [k x] [k' c] Hx [_ Hxc]. now apply (IH (k, x) Hx).
Qed.

Lemma containers_extends P h h' v l :
  extends h h' -> rep P h v l -> containers h' v l = containers h v l.
Proof.
  intros [_ He] Hr. apply (containers_transfer P); [|exact Hr].
  intros x o _ Hx. rewrite He; [exact Hx | exact (nth_error_valid _ _ _ Hx)].
Qed.

Lemma containers_update P h v l res o :
  ~ P res -> rep P h v l ->
  containers (update h res o) v l = containers h v l.
Proof.
  intros Hn Hr. apply (containers_transfer P); [|exact Hr].
  intros x ox HP Hx.
  rewrite nth_error_update_other; [exact Hx|]. intros ->. contradiction.
Qed.

Lemma made_transfer P n h h' v l :
  (forall x o, P x -> nth_error h x = Some o -> nth_error h' x = Some o) ->
  rep P h v l -> made n h' v l = made n h v l.
Proof.
  intros HT Hr. unfold made. now rewrite (containers_transfer P h h' v HT).
Qed.

Lemma made_extends P n h h' v l :
  extends h h' -> rep P h v l -> made n h' v l = made n h v l.
Proof.
  intros [_ He]. apply made_transfer. intros x o _ Hx.
  rewrite He; [exact Hx | exact (nth_error_valid _ _ _ Hx)].
Qed.

Lemma made_update P n h v l res o :
  ~ P res -> rep P h v l -> made n (update h res o) v l = made n h v l.
Proof.
  intros Hn. apply made_transfer. intros x ox HP Hx.
  rewrite nth_error_update_other; [exact Hx|]. intros ->. contradiction.
Qed.

Lemma made_visited P n h v l x :
  rep P h v l -> In x (made n h v l) ->
  P x /\ (x < List.length h)%nat /\ (n <= x)%nat.
Proof.
  intros Hr Hx. unfold made in Hx. apply filter_In in Hx.
  destruct Hx as [Hx Hn]. apply Nat.leb_le in Hn.
  pose proof (containers_visited P h v l Hr) as HF.
  rewrite Forall_forall in HF. destruct (HF x Hx). auto.
Qed.

(** An old value has made nothing. *)
Lemma made_old base n h v l :
  (base <= n)%nat -> rep (fun x => (x < base)%nat) h v l -> made n h v l = [].
Proof.
  intros Hb Hr. destruct (made n h v l) as [|x rest] eqn:E; [reflexivity|].
  destruct (made_visited _ n h v l x Hr) as [H1 [_ H2]];
    [rewrite E; now left | lia].
Qed.

(** What a value has made since [lo] it has made since [m], when it has
    nothing between the two. *)
Lemma made_since base lo m h v l :
  (base <= lo)%nat -> (lo <= m)%nat ->
  rep (fun x => (x < base)%nat \/ (m <= x)%nat) h v l ->
  made lo h v l = made m h v l.
Proof.
  intros Hb Hm Hr. unfold made. apply filter_ext_in. intros x Hx.
  pose proof (containers_visited _ h v l Hr) as HF.
  rewrite Forall_forall in HF. destruct (HF x Hx) as [[H|H] _].
  - transitivity false; [|symmetry]; apply Nat.leb_gt; lia.
  - transitivity true; [|symmetry]; apply Nat.leb_le; lia.
Qed.

Lemma flat2_setitem_In {A B C} (g : string * A -> string * B -> list C)
  (ds : list (string * A)) (es : list (string * B)) k d r x :
  (forall k1 k2 a b, g (k1, a) (k2, b) = g (k, a) (k, b)) ->
  Forall2 (fun kv e => fst kv = fst e) ds es ->
  In x (flat2 g (setitem ds k d) (setitem es k r)) ->
  In x (flat2 g ds es) \/ In x (g (k, d) (k, r)).
Proof.
  intros Hg HF. induction HF as [|[k1 v1] [k2 c2] ds es Hk _ IH]; simpl.
  - rewrite app_nil_r. now right.
  - simpl in Hk. subst k2. destruct (String.eqb k1 k); simpl;
      rewrite !in_app_iff.
    + rewrite (Hg k1 k1 d r). tauto.
    + intros [H|H]; [tauto|]. destruct (IH H); tauto.
Qed.

(** Storing a value that shares nothing with the entries of a dictionary
    gives entries that share nothing with each other. *)
Lemma flat2_setitem_NoDup {A B C} (g : string * A -> string * B -> list C)
  (ds : list (string * A)) (es : list (string * B)) k d r :
  (forall k1 k2 a b, g (k1, a) (k2, b) = g (k, a) (k, b)) ->
  Forall2 (fun kv e => fst kv = fst e) ds es ->
  NoDup (flat2 g ds es) ->
  NoDup (g (k, d) (k, r)) ->
  (forall x, In x (flat2 g ds es) -> ~ In x (g (k, d) (k, r))) ->
  NoDup (flat2 g (setitem ds k d) (setitem es k r)).
Proof.
  intros Hg HF. induction HF as [|[k1 v1] [k2 c2] ds es Hk HF IH];
    simpl; intros Hnd Hnew Hdis.
  - now rewrite app_nil_r.
  - simpl in Hk. subst k2.
    pose proof (NoDup_app_remove_l _ _ Hnd) as Hrest.
    pose proof (NoDup_app_remove_r _ _ Hnd) as Hhead.
    destruct (String.eqb k1 k); simpl.
    + rewrite (Hg k1 k1 d r). apply NoDup_app; [exact Hnew | exact Hrest|].
      intros x Hx Hx'. apply (Hdis x); [|exact Hx].
      apply in_or_app. now right.
    + apply NoDup_app; [exact Hhead| |].
      * apply IH; [exact Hrest | exact Hnew|].
        intros x Hx. apply Hdis. apply in_or_app. now right.
      * intros x Hx Hx'.
        destruct (flat2_setitem_In g ds es k d r x Hg HF Hx') as [H|H].
        -- clear - Hnd Hx H. induction (g (k1, v1) (k1, c2)) as [|y l IHl];
             [destruct Hx|].
           simpl in Hnd. inversion Hnd; subst. destruct Hx as [->|Hx].
           ++ apply H2. apply in_or_app. now right.
           ++ now apply IHl.
        -- apply (Hdis x); [|exact H]. apply in_or_app. now left.
Qed.

(** ** The loops *)

(** The loop that fills the dictionary at [res]: [lo] is the length of the
    heap when the call began, so that [res] and what the loop stores are
    at or above [lo], and the input is below [base]. *)
Lemma store_each_at_refines plain base h0 get tget names res lo :
  (base <= lo)%nat -> (lo <= res)%nat ->
  (forall name, In name names ->
                returns_like plain base h0 (get name) (tget name)) ->
  forall hc es ds,
    agree base h0 hc ->
    (res < List.length hc)%nat ->
    nth_error hc res = Some (ODict es) ->
    Forall2 (entry_rep
               (fun x => ((x < base)%nat \/ (lo <= x)%nat) /\ x <> res) hc)
      ds es ->
    NoDup (flat2 (fun kv e => made lo hc (snd kv) (snd e)) ds es) ->
    (plain = true ->
     Forall (fun x => (lo <= x)%nat)
       (flat2 (fun kv e => containers hc (snd kv) (snd e)) ds es)) ->
    match store_each tget names ds with
    | Ok ds' =>
        exists hc' es',
          store_each_at get names res hc = Ok (tt, hc')
          /\ (List.length hc <= List.length hc')%nat
          /\ (forall x, (x < lo)%nat -> nth_error hc' x = nth_error hc x)
          /\ nth_error hc' res = Some (ODict es')
          /\ Forall2 (entry_rep
                        (fun x => ((x < base)%nat \/ (lo <= x)%nat)
                                  /\ x <> res) hc')
               ds' es'
          /\ NoDup (flat2 (fun kv e => made lo hc' (snd kv) (snd e)) ds' es')
          /\ (plain = true ->
              Forall (fun x => (lo <= x)%nat)
                (flat2 (fun kv e => containers hc' (snd kv) (snd e))
                   ds' es'))
    | Raise e => store_each_at get names res hc = Raise e
    end.
Proof.
  intros Hbase Hlo.
  induction names as [|n rest IH];
    intros Hget hc es ds Hag Hres Hd Hent Hnd Hpl.
  - simpl. exists hc, es. auto 10.
  - simpl. pose proof (Hget n (or_introl eq_refl) hc Hag) as Hn.
    destruct (tget n) as [d|e]; simpl.
    2:{ rewrite Hn. reflexivity. }
    destruct Hn as [r [hc1 [Hrun [Hext [Hrep [Hnew Hpl1]]]]]].
    rewrite Hrun. simpl.
    assert (nth_error hc1 res = Some (ODict es)) as Hd1.
    { destruct Hext as [_ E]. now rewrite E. }
    unfold setitem_at. rewrite Hd1.
    set (hc2 := update hc1 res (ODict (setitem es n r))).
    set (Q := fun x => ((x < base)%nat \/ (lo <= x)%nat) /\ x <> res) in *.
    assert (List.length hc2 = List.length hc1) as Hlen2
      by apply update_length.
    assert (List.length hc <= List.length hc1)%nat as Hlen1
      by apply Hext.
    assert (forall x, x <> res -> nth_error hc2 x = nth_error hc1 x) as Hoth.
    { intros x Hx. apply nth_error_update_other. congruence. }
    assert (agree base h0 hc2) as Hag2.
    { destruct (agree_extends _ _ _ _ Hag Hext) as [L A]. split; [lia|].
      intros x Hx. rewrite Hoth; [now apply A | lia]. }
    assert (nth_error hc2 res = Some (ODict (setitem es n r))) as Hd2.
    { apply nth_error_update_same. lia. }
    assert (~ Q res) as HQ by (unfold Q; tauto).
    assert (rep Q hc1 d r) as Hrep1.
    { revert Hrep. apply rep_impl. unfold Q.
      intros x [Hx|Hx]; (split; [|lia]); [now left | right; lia]. }
    assert (Forall2 (entry_rep Q hc2) (setitem ds n d) (setitem es n r))
      as Hent2.
    { apply entry_rep_setitem.
      - eapply Forall2_impl; [|exact Hent]. intros kv e [Hk Hv].
        split; [exact Hk|]. apply rep_update; [exact HQ|].
        now apply (rep_extends _ hc).
      - now apply rep_update. }
    assert (flat2 (fun kv e => made lo hc2 (snd kv) (snd e)) ds es =
            flat2 (fun kv e => made lo hc (snd kv) (snd e)) ds es) as Hsame.
    { apply (flat2_ext _ _ _ _ _ Hent). intros kv e _ [_ Hv].
      unfold hc2.
      rewrite (made_update Q); [|exact HQ | now apply (rep_extends _ hc)].
      now apply (made_extends Q). }
    assert (made lo hc2 d r = made (List.length hc) hc1 d r) as Hnewsame.
    { unfold hc2. rewrite (made_update Q _ _ _ _ _ _ HQ Hrep1).
      apply (made_since base); [exact Hbase | lia | exact Hrep]. }
    assert (NoDup (flat2 (fun kv e => made lo hc2 (snd kv) (snd e))
                     (setitem ds n d) (setitem es n r))) as Hnd2.
    { apply (flat2_setitem_NoDup
               (fun kv e => made lo hc2 (snd kv) (snd e))).
      - reflexivity.
      - eapply Forall2_impl; [|exact Hent]. intros kv e [Hk _]. exact Hk.
      - rewrite Hsame. exact Hnd.
      - cbn [snd]. rewrite Hnewsame. exact Hnew.
      - cbn [snd]. rewrite Hsame, Hnewsame. intros x Hx Hx'.
        destruct (made_visited _ _ _ _ _ _ Hrep Hx') as [_ [_ Hge]].
        assert (Forall (fun y => (y < List.length hc)%nat)
                  (flat2 (fun kv e => made lo hc (snd kv) (snd e)) ds es))
          as Hold.
        { apply (flat2_Forall _ _ _ _ _ Hent). intros kv e _ [_ Hv].
          apply Forall_forall. intros y Hy.
          now destruct (made_visited _ _ _ _ _ _ Hv Hy) as [_ [Hlt _]]. }
        rewrite Forall_forall in Hold. specialize (Hold x Hx). lia. }
    assert (plain = true ->
            Forall (fun x => (lo <= x)%nat)
              (flat2 (fun kv e => containers hc2 (snd kv) (snd e))
                 (setitem ds n d) (setitem es n r))) as Hpl2.
    { intros Hb. apply Forall_forall. intros x Hx.
      apply (flat2_setitem_In
               (fun kv e => containers hc2 (snd kv) (snd e))) in Hx;
        [|reflexivity
         |eapply Forall2_impl; [|exact Hent]; intros kv e [Hk _]; exact Hk].
      destruct Hx as [Hx|Hx].
      - assert (flat2 (fun kv e => containers hc2 (snd kv) (snd e)) ds es =
                flat2 (fun kv e => containers hc (snd kv) (snd e)) ds es)
          as Hc.
        { apply (flat2_ext _ _ _ _ _ Hent). intros kv e _ [_ Hv]. unfold hc2.
          rewrite (containers_update Q);
            [|exact HQ | now apply (rep_extends _ hc)].
          now apply (containers_extends Q). }
        rewrite Hc in Hx. specialize (Hpl Hb).
        rewrite Forall_forall in Hpl. now apply Hpl.
      - cbn [snd] in Hx. unfold hc2 in Hx.
        rewrite (containers_update Q _ _ _ _ _ HQ Hrep1) in Hx.
        specialize (Hpl1 Hb). rewrite Forall_forall in Hpl1.
        specialize (Hpl1 x Hx). lia. }
    specialize (IH (fun name H => Hget name (or_intror H))
                  hc2 (setitem es n r) (setitem ds n d) Hag2
                  ltac:(lia) Hd2 Hent2 Hnd2 Hpl2).
    destruct (store_each tget rest (setitem ds n d)) as [ds'|e];
      [|exact IH].
    destruct IH
      as [hc' [es' [Hrun' [Hlen' [Hfr [Hd' [Hent' [Hnd' Hpl']]]]]]]].
    exists hc', es'. split; [exact Hrun'|]. split; [lia|].
    split; [|split; [|split; [|split]]; assumption].
    intros x Hx. rewrite Hfr, Hoth by lia. apply Hext. lia.
Qed.

(** The loop that fills the list at [res]. *)
Lemma append_each_at_refines plain base h0 f (tf : value -> result value)
  ls ts res lo :
  (base <= lo)%nat -> (lo <= res)%nat ->
  Forall2 (fun t l => returns_like plain base h0 (f l) (tf t)) ts ls ->
  forall hc acc accd,
    agree base h0 hc ->
    (res < List.length hc)%nat ->
    nth_error hc res = Some (OList acc) ->
    Forall2 (rep (fun x => ((x < base)%nat \/ (lo <= x)%nat) /\ x <> res) hc)
      accd acc ->
    NoDup (flat2 (made lo hc) accd acc) ->
    (plain = true ->
     Forall (fun x => (lo <= x)%nat) (flat2 (containers hc) accd acc)) ->
    match comprehension tf ts with
    | Ok ds =>
        exists hc' rs,
          append_each_at f ls res hc = Ok (tt, hc')
          /\ (List.length hc <= List.length hc')%nat
          /\ (forall x, (x < lo)%nat -> nth_error hc' x = nth_error hc x)
          /\ nth_error hc' res = Some (OList (acc ++ rs))
          /\ Forall2 (rep (fun x => ((x < base)%nat \/ (lo <= x)%nat)
                                    /\ x <> res) hc')
               (accd ++ ds) (acc ++ rs)
          /\ NoDup (flat2 (made lo hc') (accd ++ ds) (acc ++ rs))
          /\ (plain = true ->
              Forall (fun x => (lo <= x)%nat)
                (flat2 (containers hc') (accd ++ ds) (acc ++ rs)))
    | Raise e => append_each_at f ls res hc = Raise e
    end.
Proof.
  intros Hbase Hlo HF.
  induction HF as [|t l ts ls Hhead _ IH];
    intros hc acc accd Hag Hres Hd Hacc Hnd Hpl.
  - simpl. exists hc, []. rewrite !app_nil_r. auto 10.
  - simpl. specialize (Hhead hc Hag).
    destruct (tf t) as [d|e]; simpl.
    2:{ rewrite Hhead. reflexivity. }
    destruct Hhead as [r [hc1 [Hrun [Hext [Hrep [Hnew Hpl1]]]]]].
    rewrite Hrun. simpl.
    assert (nth_error hc1 res = Some (OList acc)) as Hd1.
    { destruct Hext as [_ E]. now rewrite E. }
    unfold append_at. rewrite Hd1.
    set (hc2 := update hc1 res (OList (acc ++ [r]))).
    set (Q := fun x => ((x < base)%nat \/ (lo <= x)%nat) /\ x <> res) in *.
    assert (List.length hc2 = List.length hc1) as Hlen2
      by apply update_length.
    assert (List.length hc <= List.length hc1)%nat as Hlen1
      by apply Hext.
    assert (forall x, x <> res -> nth_error hc2 x = nth_error hc1 x) as Hoth.
    { intros x Hx. apply nth_error_update_other. congruence. }
    assert (agree base h0 hc2) as Hag2.
    { destruct (agree_extends _ _ _ _ Hag Hext) as [L A]. split; [lia|].
      intros x Hx. rewrite Hoth; [now apply A | lia]. }
    assert (nth_error hc2 res = Some (OList (acc ++ [r]))) as Hd2.
    { apply nth_error_update_same. lia. }
    assert (~ Q res) as HQ by (unfold Q; tauto).
    assert (rep Q hc1 d r) as Hrep1.
    { revert Hrep. apply rep_impl. unfold Q.
      intros x [Hx|Hx]; (split; [|lia]); [now left | right; lia]. }
    assert (Forall2 (rep Q hc2) (accd ++ [d]) (acc ++ [r])) as Hacc2.
    { apply Forall2_app.
      - eapply Forall2_impl; [|exact Hacc]. intros v c Hv.
        apply rep_update; [exact HQ|]. now apply (rep_extends _ hc).
      - constructor; [|constructor]. now apply rep_update. }
    assert (flat2 (made lo hc2) accd acc = flat2 (made lo hc) accd acc)
      as Hsame.
    { apply (flat2_ext _ _ _ _ _ Hacc). intros v c _ Hv. unfold hc2.
      rewrite (made_update Q); [|exact HQ | now apply (rep_extends _ hc)].
      now apply (made_extends Q). }
    assert (made lo hc2 d r = made (List.length hc) hc1 d r) as Hnewsame.
    { unfold hc2. rewrite (made_update Q _ _ _ _ _ _ HQ Hrep1).
      apply (made_since base); [exact Hbase | lia | exact Hrep]. }
    assert (NoDup (flat2 (made lo hc2) (accd ++ [d]) (acc ++ [r]))) as Hnd2.
    { rewrite (flat2_snoc _ _ _ _ _ _ Hacc), Hsame, Hnewsame.
      apply NoDup_app; [exact Hnd | exact Hnew|]. intros x Hx Hx'.
      destruct (made_visited _ _ _ _ _ _ Hrep Hx') as [_ [_ Hge]].
      assert (Forall (fun y => (y < List.length hc)%nat)
                (flat2 (made lo hc) accd acc)) as Hold.
      { apply (flat2_Forall _ _ _ _ _ Hacc). intros v c _ Hv.
        apply Forall_forall. intros y Hy.
        now destruct (made_visited _ _ _ _ _ _ Hv Hy) as [_ [Hlt _]]. }
      rewrite Forall_forall in Hold. specialize (Hold x Hx). lia. }
    assert (plain = true ->
            Forall (fun x => (lo <= x)%nat)
              (flat2 (containers hc2) (accd ++ [d]) (acc ++ [r]))) as Hpl2.
    { intros Hb. rewrite (flat2_snoc _ _ _ _ _ _ Hacc).
      apply Forall_app. split.
      - assert (flat2 (containers hc2) accd acc =
                flat2 (containers hc) accd acc) as Hc.
        { apply (flat2_ext _ _ _ _ _ Hacc). intros v c _ Hv. unfold hc2.
          rewrite (containers_update Q);
            [|exact HQ | now apply (rep_extends _ hc)].
          now apply (containers_extends Q). }
        rewrite Hc. exact (Hpl Hb).
      - unfold hc2. rewrite (containers_update Q _ _ _ _ _ HQ Hrep1).
        eapply Forall_impl; [|exact (Hpl1 Hb)]. intros x Hx. simpl in Hx.
        lia. }
    specialize (IH hc2 (acc ++ [r]) (accd ++ [d]) Hag2 ltac:(lia) Hd2
                  Hacc2 Hnd2 Hpl2).
    destruct (comprehension tf ts) as [ds|e]; simpl; [|exact IH].
    destruct IH
      as [hc' [rs [Hrun' [Hlen' [Hfr [Hd' [Hacc' [Hnd' Hpl']]]]]]]].
    exists hc', (r :: rs). split; [exact Hrun'|]. split; [lia|].
    rewrite <- app_assoc in Hd'.
    rewrite <- (app_assoc accd), <- (app_assoc acc) in Hacc', Hnd', Hpl'.
    simpl in Hd', Hacc', Hnd', Hpl'.
    split; [|split; [|split; [|split]]; assumption].
    intros x Hx. rewrite Hfr, Hoth by lia. apply Hext. lia.
Qed.

(** ** The calls *)

Lemma height_item x items :
  In x items -> (height x < height (VList items))%nat.
Proof.
  cbn [height]. induction items as [|y items IH]; simpl; [tauto|].
  intros [->|H]; [lia|]. specialize (IH H). lia.
Qed.

Lemma height_attr cls fs ats attrs k x :
  In (k, x) attrs -> (height x < height (VAST cls fs ats attrs))%nat.
Proof.
  cbn [height]. induction attrs as [|[k' y] attrs IH]; simpl; [tauto|].
  intros [[= -> ->]|H]; [lia|]. specialize (IH H). lia.
Qed.

Lemma height_node cls fs ats attrs :
  (2 <= height (VAST cls fs ats attrs))%nat.
Proof.
  cbn [height]. induction attrs as [|[k' y] attrs IH]; simpl; lia.
Qed.

(** The serialiser on the heap does what the serialiser on trees does,
    when the interpreter allows as many nested calls as the tree is
    high. *)
Lemma ast_to_dict_at_refines t :
  forall depth h0 l base,
    rep (fun x => (x < base)%nat) h0 t l ->
    (height t <= depth)%nat ->
    returns_like (atoms_only t) base h0
      (ast_to_dict_at depth l) (ast_to_dict t).
Proof.
  induction t as [a|items IH|items IH|entries IH|cls fs ats attrs IH]
    using value_ind'; intros depth h0 l base Hrep Hh hc Hag;
    pose proof (rep_agree _ _ _ _ _ Hag Hrep) as Hc;
    (destruct depth as [|depth']; [simpl in Hh; lia|]).
  - (* an atom *)
    cbn [rep] in Hc. destruct Hc as [Hl Hn]. cbn [ast_to_dict].
    exists l, hc.
    split; [cbn [ast_to_dict_at]; rewrite Hn; reflexivity|].
    split; [apply extends_refl|].
    split; [cbn [rep]; auto|]. split; [constructor|].
    intros _. constructor.
  - (* a tuple *)
    pose proof Hc as Hc'. cbn [rep] in Hc'.
    destruct Hc' as [Hl [ls [Hn _]]]. cbn [ast_to_dict].
    exists l, hc.
    split; [cbn [ast_to_dict_at]; rewrite Hn; reflexivity|].
    split; [apply extends_refl|].
    split; [revert Hc; apply rep_impl; auto|].
    split; [|discriminate].
    rewrite (made_old base _ _ _ _ (proj1 Hag) Hc). constructor.
  - (* a list *)
    apply rep_list in Hc. destruct Hc as [Hl [ls [Hn Hitems]]].
    apply rep_list in Hrep. destruct Hrep as [_ [ls0 [Hn0 Hitems0]]].
    assert (ls0 = ls) as ->.
    { destruct Hag as [_ A]. rewrite <- A in Hn0 by exact Hl. congruence. }
    rewrite ast_to_dict_list. cbn [ast_to_dict_at]. rewrite Hn.
    unfold alloc. cbn iota.
    set (res := List.length hc). set (h1 := hc ++ [OList []]).
    assert (extends hc h1) as Hext1 by apply (extends_alloc hc (OList [])).
    assert (List.length h1 = S res) as Hlen1
      by apply (alloc_length hc (OList [])).
    pose proof (append_each_at_refines (atoms_only (VList items)) base h0
                  (ast_to_dict_at depth') ast_to_dict ls items res res)
      as Hloop.
    specialize (Hloop ltac:(destruct Hag; lia) (le_n _)).
    assert (Forall2 (fun t l => returns_like (atoms_only (VList items))
                                  base h0
                                  (ast_to_dict_at depth' l) (ast_to_dict t))
              items ls) as HF.
    { rewrite Forall_forall in IH.
      assert (forall x, In x items -> (height x <= depth')%nat) as Hhx.
      { intros x Hx. pose proof (height_item x items Hx). lia. }
      assert (forall x, In x items -> atoms_only (VList items) = true ->
                        atoms_only x = true) as Hpx.
      { intros x Hx Hb. cbn [atoms_only] in Hb.
        rewrite forallb_forall in Hb. now apply Hb. }
      revert IH Hhx Hpx. generalize (atoms_only (VList items)).
      clear - Hitems0. intros b IH Hhx Hpx.
      induction Hitems0 as [|x c items ls Hx _ IHF]; constructor.
      - apply (returns_like_weaken (atoms_only x)).
        + apply Hpx. now left.
        + apply IH; [now left | exact Hx | apply Hhx; now left].
      - apply IHF.
        + intros y Hy. apply IH. now right.
        + intros y Hy. apply Hhx. now right.
        + intros y Hy. apply Hpx. now right. }
    specialize (Hloop HF h1 [] [] (agree_extends _ _ _ _ Hag Hext1)
                  ltac:(lia)
                  (nth_error_alloc hc (OList []))
                  (Forall2_nil _) (NoDup_nil _)
                  (fun _ => Forall_nil _)).
    destruct (comprehension ast_to_dict items) as [ds|e]; cbn [bind].
    2:{ rewrite Hloop. reflexivity. }
    destruct Hloop as [hc' [rs [Hrun [Hlen [Hfr [Hd [Hds [Hnd Hpl]]]]]]]].
    simpl app in Hd, Hds, Hnd, Hpl.
    exists res, hc'. split; [rewrite Hrun; reflexivity|].
    split; [|split; [|split]].
    + split; [lia|]. intros x Hx. rewrite Hfr by exact Hx. now apply Hext1.
    + apply rep_list. split; [right; unfold res; lia|].
      exists rs. split; [exact Hd|].
      eapply Forall2_impl; [|exact Hds]. intros v c. apply rep_impl.
      intros x [Hx _]. exact Hx.
    + fold res. rewrite (made_list _ _ _ _ _ Hd), Nat.leb_refl. simpl app.
      constructor; [|exact Hnd]. intros Hin.
      assert (Forall (fun y => y <> res) (flat2 (made res hc') ds rs))
        as Hne.
      { apply (flat2_Forall _ _ _ _ _ Hds). intros v c _ Hv.
        apply Forall_forall. intros y Hy.
        now destruct (made_visited _ _ _ _ _ _ Hv Hy) as [[_ Hy'] _]. }
      rewrite Forall_forall in Hne. now apply (Hne res Hin).
    + intros Hb. rewrite (containers_list _ _ _ _ Hd).
      constructor; [unfold res; lia | exact (Hpl Hb)].
  - (* a dictionary *)
    pose proof Hc as Hc'. cbn [rep] in Hc'.
    destruct Hc' as [Hl [es [Hn _]]]. cbn [ast_to_dict].
    exists l, hc.
    split; [cbn [ast_to_dict_at]; rewrite Hn; reflexivity|].
    split; [apply extends_refl|].
    split; [revert Hc; apply rep_impl; auto|].
    split; [|discriminate].
    rewrite (made_old base _ _ _ _ (proj1 Hag) Hc). constructor.
  - (* a node *)
    apply rep_ast in Hc. destruct Hc as [Hl [es [Hn Hattrs]]].
    apply rep_ast in Hrep. destruct Hrep as [_ [es0 [Hn0 Hattrs0]]].
    assert (es0 = es) as ->.
    { destruct Hag as [_ A]. rewrite <- A in Hn0 by exact Hl. congruence. }
    pose proof (height_node cls fs ats attrs) as Hh2.
    rewrite Forall_forall in IH.
    set (plain := atoms_only (VAST cls fs ats attrs)).
    assert (forall name v c,
              In name (fs ++ ats) ->
              lookup attrs name = Some v -> rep (fun x => (x < base)%nat) h0 v c ->
              returns_like plain base h0
                (ast_to_dict_at depth' c) (ast_to_dict v))
      as Hchild.
    { intros name v c Hin Hv Hr.
      apply (returns_like_weaken (atoms_only v)).
      - unfold plain. cbn [atoms_only]. rewrite forallb_forall.
        intros Hb. specialize (Hb name Hin).
        now rewrite getattr_then_lookup, Hv in Hb.
      - apply lookup_In in Hv.
        apply (IH (name, v) Hv); [exact Hr|]. cbn [snd].
        pose proof (height_attr cls fs ats attrs name v Hv). lia. }
    rewrite ast_to_dict_node. cbn [ast_to_dict_at]. rewrite Hn.
    unfold alloc. cbn iota.
    set (n0 := List.length hc). set (h1 := hc ++ [OAtom (AStr cls)]).
    set (res := List.length h1).
    match goal with
    | |- context [store_each_at ?g fs res ?h] => set (get_f := g); set (h2 := h)
    end.
    match goal with
    | |- context [store_each_at ?g ats res] => set (get_a := g)
    end.
    match goal with
    | |- context [store_each ?g fs] => set (tget_f := g)
    end.
    match goal with
    | |- context [store_each ?g ats] => set (tget_a := g)
    end.
    assert (forall name, In name fs ->
              returns_like plain base h0 (get_f name) (tget_f name))
      as Hget_f.
    { intros name Hin. unfold get_f, tget_f, getattr.
      pose proof (entry_rep_lookup _ _ _ _ name Hattrs0) as Hlk.
      destruct (lookup attrs name) as [v|] eqn:Ev,
               (lookup es name) as [c|]; try contradiction; cbn [bind].
      - apply (Hchild name v c); [apply in_or_app; now left|exact Ev|exact Hlk].
      - intros hx _. reflexivity. }
    assert (forall name, In name ats ->
              returns_like plain base h0 (get_a name) (tget_a name))
      as Hget_a.
    { intros name Hin. unfold get_a, tget_a, getattr_default.
      pose proof (entry_rep_lookup _ _ _ _ name Hattrs0) as Hlk.
      destruct (lookup attrs name) as [v|] eqn:Ev,
               (lookup es name) as [c|]; try contradiction.
      - apply (Hchild name v c);
          [apply in_or_app; now right | exact Ev | exact Hlk].
      - intros hx Hx. destruct depth' as [|d'']; [lia|].
        exists (List.length hx), (hx ++ [OAtom ANone]).
        pose proof (nth_error_alloc hx (OAtom ANone)) as Hnone.
        simpl in Hnone.
        split; [cbn [ast_to_dict_at ast_to_dict]; now rewrite Hnone|].
        split; [apply (extends_alloc hx (OAtom ANone))|].
        split; [|split; [constructor | intros _; constructor]].
        cbn [rep]. split; [right; lia | exact Hnone]. }
    assert (List.length h1 = S n0) as Hlen1
      by apply (alloc_length hc (OAtom (AStr cls))).
    assert (List.length h2 = S res) as Hlen2
      by apply (alloc_length h1 (ODict [("_type", n0)])).
    assert (extends hc h2) as Hext2.
    { eapply extends_trans; [apply (extends_alloc hc (OAtom (AStr cls)))|].
      apply (extends_alloc h1 (ODict [("_type", n0)])). }
    assert (base <= n0)%nat as Hbase by (destruct Hag; unfold n0; lia).
    assert (n0 <= res)%nat as Hlo by lia.
    assert (Forall2 (entry_rep
                       (fun x => ((x < base)%nat \/ (n0 <= x)%nat)
                                 /\ x <> res) h2)
              [("_type", VStr cls)] [("_type", n0)]) as Hent2.
    { constructor; [|constructor]. split; [reflexivity|].
      cbn [rep snd]. split; [lia|].
      destruct (extends_alloc h1 (ODict [("_type", n0)])) as [_ E].
      simpl in E. unfold h2. rewrite E by lia.
      apply (nth_error_alloc hc (OAtom (AStr cls))). }
    pose proof (store_each_at_refines plain base h0 get_f tget_f fs res n0
                  Hbase Hlo Hget_f
                  h2 [("_type", n0)] [("_type", VStr cls)]
                  (agree_extends _ _ _ _ Hag Hext2) ltac:(lia)
                  (nth_error_alloc h1 (ODict [("_type", n0)])) Hent2
                  (NoDup_nil _) (fun _ => Forall_nil _)) as L1.
    destruct (store_each tget_f fs [("_type", VStr cls)]) as [ds1|e];
      cbn [bind].
    2:{ rewrite L1. reflexivity. }
    destruct L1
      as [hc1 [es1 [Hrun1 [Hlenc1 [Hfr1 [Hd1 [Hent1 [Hnd1 Hpl1]]]]]]]].
    assert (agree base h0 hc1) as Hag1.
    { destruct (agree_extends _ _ _ _ Hag Hext2) as [L A]. split; [lia|].
      intros x Hx. rewrite Hfr1 by lia. now apply A. }
    pose proof (store_each_at_refines plain base h0 get_a tget_a ats res n0
                  Hbase Hlo Hget_a
                  hc1 es1 ds1 Hag1 ltac:(lia) Hd1 Hent1 Hnd1 Hpl1) as L2.
    rewrite Hrun1. cbn [bind].
    destruct (store_each tget_a ats ds1) as [ds2|e]; cbn [bind].
    2:{ rewrite L2. reflexivity. }
    destruct L2
      as [hc2 [es2 [Hrun2 [Hlenc2 [Hfr2 [Hd2 [Hent2' [Hnd2 Hpl2]]]]]]]].
    exists res, hc2. split; [rewrite Hrun2; reflexivity|].
    split; [|split; [|split]].
    + split; [unfold n0 in *; lia|]. intros x Hx.
      rewrite Hfr2, Hfr1 by (unfold n0; lia). now apply Hext2.
    + apply rep_dict. split; [right; lia|].
      exists es2. split; [exact Hd2|].
      eapply Forall2_impl; [|exact Hent2']. intros kv e0 [Hk Hv].
      split; [exact Hk|]. revert Hv. apply rep_impl.
      intros x [Hx _]. exact Hx.
    + fold n0. rewrite (made_dict _ _ _ _ _ Hd2).
      replace (n0 <=? res)%nat with true by (symmetry; apply Nat.leb_le; lia).
      simpl app. constructor; [|exact Hnd2]. intros Hin.
      assert (Forall (fun y => y <> res)
                (flat2 (fun kv e => made n0 hc2 (snd kv) (snd e)) ds2 es2))
        as Hne.
      { apply (flat2_Forall _ _ _ _ _ Hent2'). intros kv e0 _ [_ Hv].
        apply Forall_forall. intros y Hy.
        now destruct (made_visited _ _ _ _ _ _ Hv Hy) as [[_ Hy'] _]. }
      rewrite Forall_forall in Hne. now apply (Hne res Hin).
    + intros Hb. rewrite (containers_dict _ _ _ _ Hd2).
      constructor; [fold n0; lia | exact (Hpl2 Hb)].
Qed.

(** An object that is neither a node nor a list is returned itself, at
    its own address, and the heap is left as it is. *)
Lemma same_object_returned depth l h o :
  nth_error h l = Some o ->
  match o with OAST _ _ _ _ | OList _ => False | _ => True end ->
  ast_to_dict_at (S depth) l h = Ok (l, h).
Proof.
  intros Hl Ho. cbn [ast_to_dict_at]. rewrite Hl.
  destruct o; (reflexivity || contradiction).
Qed.

(** ** One tree, one document *)

(** Two values of different kinds are not held by one object. *)
Ltac clash H H' :=
  cbn [rep] in H, H';
  repeat match goal with
         | X : _ /\ _ |- _ => destruct X
         | X : exists _, _ |- _ => destruct X
         end;
  congruence.

(** A value on the heap is one value. *)
Lemma rep_functional P Q h v :
  forall v' l, rep P h v l -> rep Q h v' l -> v = v'.
Proof.
  induction v as [a|items IH|items IH|entries IH|cls fs ats attrs IH]
    using value_ind'; intros v' l H H';
    destruct v' as [a'|items'|items'|entries'|c' f' a' attrs'];
    try (clash H H').
  - cbn [rep] in H, H'. destruct H as [_ [ls [Hl Hall]]].
    destruct H' as [_ [ls' [Hl' Hall']]].
    apply all2_Forall2 in Hall, Hall'.
    f_equal. assert (ls' = ls) as -> by congruence.
    clear Hl Hl'. revert items' Hall'.
    induction Hall as [|x c items ls Hx _ IHa]; intros items' Hall';
      inversion Hall'; subst; [reflexivity|].
    inversion IH; subst. f_equal; eauto.
  - apply rep_list in H, H'. destruct H as [_ [ls [Hl Hall]]].
    destruct H' as [_ [ls' [Hl' Hall']]].
    f_equal. assert (ls' = ls) as -> by congruence.
    clear Hl Hl'. revert items' Hall'.
    induction Hall as [|x c items ls Hx _ IHa]; intros items' Hall';
      inversion Hall'; subst; [reflexivity|].
    inversion IH; subst. f_equal; eauto.
  - apply rep_dict in H, H'. destruct H as [_ [es [Hl Hall]]].
    destruct H' as [_ [es' [Hl' Hall']]].
    f_equal. assert (es' = es) as -> by congruence.
    clear Hl Hl'. revert entries' Hall'.
    induction Hall as [|[k x] [k0 c] entries es [Hk Hx] _ IHa];
      intros entries' Hall'; inversion Hall' as [|[k' x'] ? ? ? [Hk' Hx']];
      subst; [reflexivity|].
    inversion IH; subst. simpl in *. subst. f_equal; [f_equal|]; eauto.
  - apply rep_ast in H, H'. destruct H as [_ [es [Hl Hall]]].
    destruct H' as [_ [es' [Hl' Hall']]].
    assert (cls = c' /\ fs = f' /\ ats = a' /\ es' = es) as [-> [-> [-> ->]]]
      by (repeat split; congruence).
    f_equal. clear Hl Hl'. revert attrs' Hall'.
    induction Hall as [|[k x] [k0 c] attrs es [Hk Hx] _ IHa];
      intros attrs' Hall'; inversion Hall' as [|[k' x'] ? ? ? [Hk' Hx']];
      subst; [reflexivity|].
    inversion IH; subst. simpl in *. subst. f_equal; [f_equal|]; eauto.
Qed.

Lemma filter_all {A} (p : A -> bool) l :
  Forall (fun x => p x = true) l -> filter p l = l.
Proof.
  induction 1 as [|x l Hx _ IH]; simpl; [reflexivity|].
  now rewrite Hx, IH.
Qed.

(** Run on an object that holds a tree, with enough depth, the serialiser
    on the heap raises what [ast_to_dict] raises on the tree, or returns
    an object that holds the document of the tree, on a heap in which
    every object that was there is unchanged.  The walk over the document
    meets no dictionary or list that the call made twice; and when the
    leaves of the tree are atoms, every dictionary and list of the
    document is one that the call made. *)
Lemma ast_to_dict_at_holds depth t h l :
  holds h l t ->
  (height t <= depth)%nat ->
  match ast_to_dict t with
  | Ok d =>
      exists r h',
        ast_to_dict_at depth l h = Ok (r, h')
        /\ extends h h'
        /\ holds h' r d
        /\ NoDup (made (List.length h) h' d r)
        /\ (atoms_only t = true ->
            Forall (fun x => (List.length h <= x)%nat) (containers h' d r)
            /\ NoDup (containers h' d r))
  | Raise e => ast_to_dict_at depth l h = Raise e
  end.
Proof.
  intros Hh Hd.
  assert (rep (fun x => (x < List.length h)%nat) h t l) as Hr.
  { apply rep_valid in Hh. revert Hh. apply rep_impl. tauto. }
  pose proof (ast_to_dict_at_refines t depth h l (List.length h) Hr Hd h)
    as H.
  specialize (H (conj (le_n _) (fun _ _ => eq_refl))).
  destruct (ast_to_dict t) as [d|e]; [|exact H].
  destruct H as [r [h' [Hrun [Hext [Hrep [Hnd Hpl]]]]]].
  exists r, h'. split; [exact Hrun|]. split; [exact Hext|].
  split; [revert Hrep; apply rep_impl; auto|]. split; [exact Hnd|].
  intros Hb. specialize (Hpl Hb). split; [exact Hpl|].
  unfold made in Hnd. rewrite filter_all in Hnd; [exact Hnd|].
  eapply Forall_impl; [|exact Hpl]. intros x Hx. now apply Nat.leb_le.
Qed.

(** C4: the document depends on the tree alone.  Two objects, on one heap
    or on two, that hold the same tree give documents that are the same
    value, keys in the same order: the mapping of a node has [_type]
    first, then the fields, then the attributes, as [ast_to_dict] on
    trees lays them out.  The serialiser changes no object that was
    there, so that a second run on the same object gives the same value
    again and leaves the first document as it was; and the JSON text,
    being computed from the value, is the same for all of them.  When
    the tree has a missing field, all runs raise the same exception. *)
Theorem same_tree_same_document depth t h1 l1 h2 l2 :
  holds h1 l1 t ->
  holds h2 l2 t ->
  (height t <= depth)%nat ->
  (exists d r1 h1' r2 h2' r3 h3,
      ast_to_dict t = Ok d
      /\ ast_to_dict_at depth l1 h1 = Ok (r1, h1')
      /\ ast_to_dict_at depth l2 h2 = Ok (r2, h2')
      /\ ast_to_dict_at depth l1 h1' = Ok (r3, h3)
      /\ extends h1 h1' /\ extends h2 h2' /\ extends h1' h3
      /\ holds h1' r1 d /\ holds h2' r2 d
      /\ holds h3 r3 d /\ holds h3 r1 d
      /\ forall d',
           holds h1' r1 d' \/ holds h2' r2 d' \/ holds h3 r3 d' ->
           d' = d /\ iterencode 2 d' 0 = iterencode 2 d 0)
  \/ (exists e,
        ast_to_dict t = Raise e
        /\ ast_to_dict_at depth l1 h1 = Raise e
        /\ ast_to_dict_at depth l2 h2 = Raise e).
Proof.
  intros H1 H2 Hd.
  pose proof (ast_to_dict_at_holds depth t h1 l1 H1 Hd) as R1.
  pose proof (ast_to_dict_at_holds depth t h2 l2 H2 Hd) as R2.
  destruct (ast_to_dict t) as [d|e] eqn:Et.
  - left. destruct R1 as [r1 [h1' [Hrun1 [Hext1 [Hdoc1 _]]]]].
    destruct R2 as [r2 [h2' [Hrun2 [Hext2 [Hdoc2 _]]]]].
    assert (holds h1' l1 t) as H1' by exact (rep_extends _ _ _ _ _ Hext1 H1).
    pose proof (ast_to_dict_at_holds depth t h1' l1 H1' Hd) as R3.
    rewrite Et in R3. destruct R3 as [r3 [h3 [Hrun3 [Hext3 [Hdoc3 _]]]]].
    exists d, r1, h1', r2, h2', r3, h3.
    repeat (split; [assumption|]).
    split; [reflexivity|]. repeat (split; [assumption|]).
    split; [exact (rep_extends _ _ _ _ _ Hext3 Hdoc1)|].
    intros d' Hd'. assert (d' = d) as ->; [|split; reflexivity].
    destruct Hd' as [Hd'|[Hd'|Hd']].
    + exact (rep_functional _ _ _ _ _ _ Hd' Hdoc1).
    + exact (rep_functional _ _ _ _ _ _ Hd' Hdoc2).
    + exact (rep_functional _ _ _ _ _ _ Hd' Hdoc3).
  - right. exists e. auto.
Qed.

(** The value at an address of a given heap, checked by running through
    the objects. *)
Ltac check_holds :=
  unfold holds;
  repeat (cbn;
          match goal with
          | |- _ /\ _ => split
          | |- exists _, _ => eexists
          | |- True => exact I
          | |- _ = _ => reflexivity
          end).

Lemma same_tree_same_document_witness :
  (exists d r1 h1' r2 h2' r3 h3,
      ast_to_dict two_names = Ok d
      /\ ast_to_dict_at 4 3 shared_heap = Ok (r1, h1')
      /\ ast_to_dict_at 4 6 unshared_heap = Ok (r2, h2')
      /\ ast_to_dict_at 4 3 h1' = Ok (r3, h3)
      /\ extends shared_heap h1' /\ extends unshared_heap h2'
      /\ extends h1' h3
      /\ holds h1' r1 d /\ holds h2' r2 d
      /\ holds h3 r3 d /\ holds h3 r1 d
      /\ forall d',
           holds h1' r1 d' \/ holds h2' r2 d' \/ holds h3 r3 d' ->
           d' = d /\ iterencode 2 d' 0 = iterencode 2 d 0)
  \/ (exists e,
        ast_to_dict two_names = Raise e
        /\ ast_to_dict_at 4 3 shared_heap = Raise e
        /\ ast_to_dict_at 4 6 unshared_heap = Raise e).
Proof.
  apply (same_tree_same_document 4 two_names shared_heap 3 unshared_heap 6).
  - check_holds.
  - check_holds.
  - vm_compute. lia.
Defined.

(** * The document as a tree *)

(** C5, as amended: on a tree whose declared fields are all present and
    on whose nodes the declared field and attribute names differ from
    each other and from [_type], the serialiser returns a document that
    the walk beside the tree accepts: a mapping for every node, with the
    class name under [_type] and the declared names as its other keys,
    verbatim and in order, a list of the same length for every list, and
    the value itself for anything else.  On the heap the object returned
    holds that document, a finite value, so that no walk runs in a
    circle, and no mapping or list that the call made is met twice on the
    walk; when the leaves of the tree are atoms, as in the trees of the
    parser, every mapping and list of the document is one that the call
    made, and none is met twice. *)
Theorem document_mirrors_tree depth tree h l :
  holds h l tree ->
  (height tree <= depth)%nat ->
  fields_present tree = true ->
  names_distinct tree = true ->
  exists doc r h',
    ast_to_dict tree = Ok doc
    /\ walk tree doc = true
    /\ ast_to_dict_at depth l h = Ok (r, h')
    /\ holds h' r doc
    /\ NoDup (made (List.length h) h' doc r)
    /\ (atoms_only tree = true ->
        Forall (fun x => (List.length h <= x)%nat) (containers h' doc r)
        /\ NoDup (containers h' doc r)).
Proof.
  intros Hh Hd Hp Hn.
  pose proof (ast_to_dict_at_holds depth tree h l Hh Hd) as H.
  apply ast_to_dict_returns in Hp. destruct Hp as [doc Hdoc].
  rewrite Hdoc in H. destruct H as [r [h' [Hrun [_ [Hr [Hnd Hpl]]]]]].
  exists doc, r, h'. split; [exact Hdoc|].
  split; [now apply walk_document|]. auto.
Qed.

Lemma document_mirrors_tree_witness :
  exists doc r h',
    ast_to_dict two_names = Ok doc
    /\ walk two_names doc = true
    /\ ast_to_dict_at 4 3 shared_heap = Ok (r, h')
    /\ holds h' r doc
    /\ NoDup (made (List.length shared_heap) h' doc r)
    /\ (atoms_only two_names = true ->
        Forall (fun x => (List.length shared_heap <= x)%nat)
          (containers h' doc r)
        /\ NoDup (containers h' doc r)).
Proof.
  apply (document_mirrors_tree 4 two_names shared_heap 3).
  - check_holds.
  - vm_compute. lia.
  - reflexivity.
  - reflexivity.
Defined.

(** The document of the list of twice the same node: two mappings at two
    addresses, each with a mapping of its own for the shared [Load]. *)
Example document_of_shared_nodes :
  exists doc h',
    ast_to_dict two_names = Ok doc
    /\ ast_to_dict_at 4 3 shared_heap = Ok (4%nat, h')
    /\ nth_error h' 4 = Some (OList [6; 14]%nat)
    /\ containers h' doc 4 = [4; 6; 8; 14; 16]%nat.
Proof. do 2 eexists. repeat split. Qed.

(** * More on the serialiser *)

(** ** The exception raised *)

Lemma stops_at_bind {A B} l1 l2 (r : result A) (k : A -> result B) :
  stops_at l1 r ->
  (forall a, r = Ok a -> stops_at l2 (k a)) ->
  stops_at (l1 ++ l2) (bind r k).
Proof.
  intros H1 H2. destruct l1 as [|[c f] l1]; simpl in *.
  - destruct H1 as [a ->]. simpl. now apply H2.
  - rewrite H1. reflexivity.
Qed.

Lemma store_each_stops get (m : string -> list (string * string)) names :
  (forall n, In n names -> stops_at (m n) (get n)) ->
  forall res, stops_at (flat_map m names) (store_each get names res).
Proof.
  induction names as [|n rest IH]; intros Hm res; simpl.
  - now exists res.
  - apply stops_at_bind; [apply Hm; now left|].
    intros v _. apply IH. intros n' Hn'. apply Hm. now right.
Qed.

Lemma comprehension_stops {A B} (f : A -> result B)
  (m : A -> list (string * string)) xs :
  (forall x, In x xs -> stops_at (m x) (f x)) ->
  stops_at (flat_map m xs) (comprehension f xs).
Proof.
  induction xs as [|x rest IH]; intros Hm; simpl.
  - now exists [].
  - apply stops_at_bind; [apply Hm; now left|].
    intros y _. rewrite <- (app_nil_r (flat_map m rest)).
    apply stops_at_bind.
    + apply IH. intros x' Hx'. apply Hm. now right.
    + intros ys _. simpl. now eexists.
Qed.

(** X1: the serialiser raises for the first missing field it comes to, and
    for nothing else: it returns when no declared field is missing on any
    node it reaches, and otherwise raises the [AttributeError] that names
    the class and the field that come first in its order, fields before
    attributes and children in their turn. *)
Theorem first_missing_field_is_raised v :
  stops_at (missing_fields v) (ast_to_dict v).
Proof.
  induction v as [a|items IH|items IH|entries IH|cls fs ats attrs IH]
    using value_ind'; try (simpl; now eexists).
  - rewrite ast_to_dict_list. cbn [missing_fields].
    rewrite <- (app_nil_r (flat_map missing_fields items)).
    apply stops_at_bind.
    + apply comprehension_stops. now apply Forall_forall.
    + intros ys _. simpl. now eexists.
  - rewrite ast_to_dict_node. cbn [missing_fields].
    rewrite Forall_forall in IH.
    assert (forall n v, lookup attrs n = Some v ->
                        stops_at (missing_fields v) (ast_to_dict v)) as K.
    { intros n v Hl. apply (IH (n, v)). now apply lookup_In. }
    apply stops_at_bind.
    + apply store_each_stops. intros n _. rewrite getattr_then_lookup.
      unfold getattr. destruct (lookup attrs n) as [v|] eqn:El; simpl.
      * now apply (K n).
      * reflexivity.
    + intros res _.
      match goal with
      | |- stops_at ?l _ => rewrite <- (app_nil_r l)
      end.
      apply stops_at_bind.
      * apply store_each_stops. intros n _. rewrite getattr_then_lookup.
        unfold getattr_default. destruct (lookup attrs n) as [v|] eqn:El;
          simpl.
        -- now apply (K n).
        -- now eexists.
      * intros res' _. simpl. now eexists.
Qed.

(** ** Serialising a document *)

(** X2: a document is its own document.  The serialiser does not go into
    a dictionary, and the items of a list it made are documents
    themselves, so that run on what it returned it returns the same
    value. *)
Theorem document_is_fixed_point t :
  forall d, ast_to_dict t = Ok d -> ast_to_dict d = Ok d.
Proof.
  induction t as [a|items IH|items IH|entries IH|cls fs ats attrs IH]
    using value_ind'; intros d H;
    try (inversion H; subst; reflexivity).
  - rewrite ast_to_dict_list in H.
    destruct (comprehension ast_to_dict items) as [ys|e] eqn:E;
      simpl in H; [|discriminate].
    inversion H; subst d. clear H. rewrite ast_to_dict_list.
    apply comprehension_Forall2 in E.
    assert (comprehension ast_to_dict ys = Ok ys) as ->; [|reflexivity].
    apply comprehension_Forall2. rewrite Forall_forall in IH.
    clear - E IH. induction E as [|x y items ys Hxy _ IHE]; constructor.
    + apply (IH x); [now left | exact Hxy].
    + apply IHE. intros z Hz. apply IH. now right.
  - rewrite ast_to_dict_node in H.
    destruct (store_each _ fs _) as [res|e]; simpl in H; [|discriminate].
    destruct (store_each _ ats res) as [res'|e]; simpl in H;
      [|discriminate].
    inversion H. reflexivity.
Qed.

Lemma document_is_fixed_point_witness :
  exists d, ast_to_dict module_x_is_1 = Ok d /\ ast_to_dict d = Ok d.
Proof.
  destruct (ast_to_dict module_x_is_1) as [d|e] eqn:E;
    [|discriminate E].
  exists d. split; [reflexivity|].
  apply (document_is_fixed_point module_x_is_1 d E).
Defined.

(** ** The keys of a mapping *)

Lemma setitem_keys_In {A} (d : list (string * A)) k v k' :
  In k' (map fst (setitem d k v)) <-> In k' (map fst d) \/ k' = k.
Proof.
  induction d as [|[k0 v0] rest IH]; simpl.
  - split.
    + intros [ <- | H ]; [now right | destruct H].
    + intros [ H | -> ]; [destruct H | now left].
  - destruct (String.eqb k0 k) eqn:E; simpl.
    + apply String.eqb_eq in E. subst k0. split; [tauto|].
      intros [ H | -> ]; [exact H | now left].
    + rewrite IH. tauto.
Qed.

Lemma setitem_keys_NoDup {A} (d : list (string * A)) k v :
  NoDup (map fst d) -> NoDup (map fst (setitem d k v)).
Proof.
  induction d as [|[k0 v0] rest IH]; simpl; intros H.
  - constructor; [intros [] | constructor].
  - inversion H as [|? ? Hn Hd]; subst.
    destruct (String.eqb k0 k) eqn:E; simpl.
    + now constructor.
    + constructor; [|now apply IH]. rewrite setitem_keys_In.
      intros [ H1 | -> ]; [contradiction|].
      rewrite String.eqb_refl in E. discriminate.
Qed.

Lemma setitem_first_key {A} (d : list (string * A)) k v k0 :
  hd_error (map fst d) = Some k0 ->
  hd_error (map fst (setitem d k v)) = Some k0.
Proof.
  destruct d as [|[k1 v1] rest]; simpl; [discriminate|].
  intros H. now destruct (String.eqb k1 k).
Qed.

Lemma store_each_keys get names :
  forall res res',
    store_each get names res = Ok res' ->
    (NoDup (map fst res) -> NoDup (map fst res'))
    /\ (forall k0, hd_error (map fst res) = Some k0 ->
                   hd_error (map fst res') = Some k0)
    /\ (forall k, In k (map fst res') <-> In k (map fst res) \/ In k names).
Proof.
  induction names as [|n rest IH]; intros res res'; simpl.
  - intros [= <-]. repeat split; auto. tauto.
  - destruct (get n) as [v|e]; simpl; [|discriminate].
    intros H. destruct (IH _ _ H) as [H1 [H2 H3]]. split; [|split].
    + intros Hnd. apply H1. now apply setitem_keys_NoDup.
    + intros k0 Hk. apply H2. now apply setitem_first_key.
    + intros k. rewrite H3, setitem_keys_In. split.
      * intros [[Hk|Hk]|Hk]; auto.
      * intros [Hk|[Hk|Hk]]; auto.
Qed.

(** X3: whatever the names a class declares, the mapping of a node has
    each key once, [_type] is its first key, and its keys are [_type] and
    the declared field and attribute names, no other. *)
Theorem mapping_keys cls fs ats attrs entries :
  ast_to_dict (VAST cls fs ats attrs) = Ok (VDict entries) ->
  NoDup (map fst entries)
  /\ hd_error (map fst entries) = Some "_type"
  /\ (forall k, In k (map fst entries) <-> In k ("_type" :: fs ++ ats)).
Proof.
  rewrite ast_to_dict_node.
  destruct (store_each _ fs _) as [res|e] eqn:E1; simpl; [|discriminate].
  destruct (store_each _ ats res) as [res'|e] eqn:E2; simpl;
    [|discriminate].
  intros [= <-].
  destruct (store_each_keys _ _ _ _ E1) as [N1 [F1 K1]].
  destruct (store_each_keys _ _ _ _ E2) as [N2 [F2 K2]].
  split; [|split].
  - apply N2, N1. simpl. constructor; [intros [] | constructor].
  - apply F2, F1. reflexivity.
  - intros k. rewrite K2, K1. simpl. rewrite in_app_iff. tauto.
Qed.

Lemma mapping_keys_witness :
  exists entries,
    ast_to_dict twice_declared = Ok (VDict entries)
    /\ NoDup (map fst entries)
    /\ hd_error (map fst entries) = Some "_type"
    /\ (forall k, In k (map fst entries) <->
                  In k ("_type" :: ["lineno"; "body"]
                        ++ ["lineno"; "col_offset"])).
Proof.
  eexists. split; [reflexivity|].
  apply (mapping_keys "Odd" ["lineno"; "body"] ["lineno"; "col_offset"]
           [("lineno", VInt 7); ("body", VList [])]).
  reflexivity.
Defined.

(** ** Names declared twice *)

Lemma store_each_lookup_other get names :
  forall res res' k,
    store_each get names res = Ok res' ->
    ~ In k names ->
    lookup res' k = lookup res k.
Proof.
  induction names as [|n rest IH]; intros res res' k; simpl.
  - now intros [= <-].
  - destruct (get n) as [v|e]; simpl; [|discriminate].
    intros H Hk. rewrite (IH _ _ _ H); [|tauto].
    apply lookup_setitem_other. intros ->. apply Hk. now left.
Qed.

(** X4: the later store wins.  In the mapping of a node every declared
    attribute holds the serialised value of the attribute, also when the
    name is a field as well or is [_type]; a field that is no attribute
    holds the serialised value of the field; and [_type] holds the class
    name when no field or attribute has that name. *)
Theorem later_store_wins cls fs ats attrs entries :
  ast_to_dict (VAST cls fs ats attrs) = Ok (VDict entries) ->
  (forall attr, In attr ats ->
     exists d, ast_to_dict (getattr_default attrs attr VNone) = Ok d
               /\ lookup entries attr = Some d)
  /\ (forall field, In field fs -> ~ In field ats ->
        exists v d, lookup attrs field = Some v
                    /\ ast_to_dict v = Ok d
                    /\ lookup entries field = Some d)
  /\ (~ In "_type" (fs ++ ats) -> lookup entries "_type" = Some (VStr cls)).
Proof.
  rewrite ast_to_dict_node.
  destruct (store_each _ fs _) as [res|e] eqn:E1; simpl; [|discriminate].
  destruct (store_each _ ats res) as [res'|e] eqn:E2; simpl;
    [|discriminate].
  intros [= <-]. split; [|split].
  - intros attr Hin.
    assert (exists r, store_each
              (fun attr => ast_to_dict (getattr_default attrs attr VNone))
              ats res = Ok r) as E2' by now exists res'.
    apply store_each_returns in E2'. rewrite Forall_forall in E2'.
    destruct (E2' attr Hin) as [d Hd]. exists d. split; [exact Hd|].
    exact (store_each_lookup _ _ _ _ _ _ E2 Hin Hd).
  - intros field Hin Hnot.
    assert (exists r, store_each
              (fun field => v <- getattr cls attrs field ;; ast_to_dict v)
              fs [("_type", VStr cls)] = Ok r) as E1' by now exists res.
    apply store_each_returns in E1'. rewrite Forall_forall in E1'.
    destruct (E1' field Hin) as [d Hd].
    pose proof (store_each_lookup _ _ _ _ _ _ E1 Hin Hd) as Hres.
    unfold getattr in Hd.
    destruct (lookup attrs field) as [v|]; simpl in Hd; [|discriminate].
    exists v, d. split; [reflexivity|]. split; [exact Hd|].
    now rewrite (store_each_lookup_other _ _ _ _ _ E2 Hnot).
  - intros Hnot.
    rewrite (store_each_lookup_other _ _ _ _ _ E2),
            (store_each_lookup_other _ _ _ _ _ E1); [reflexivity| |];
      intros H; apply Hnot, in_or_app; auto.
Qed.

Lemma later_store_wins_witness :
  exists entries,
    ast_to_dict twice_declared = Ok (VDict entries)
    /\ lookup entries "lineno" = Some (VInt 7)
    /\ lookup entries "col_offset" = Some VNone
    /\ lookup entries "_type" = Some (VStr "Odd").
Proof.
  destruct (ast_to_dict twice_declared) as [[| | |entries|]|e] eqn:E;
    try discriminate E.
  exists entries. split; [reflexivity|].
  destruct (later_store_wins "Odd" ["lineno"; "body"]
              ["lineno"; "col_offset"]
              [("lineno", VInt 7); ("body", VList [])] entries E)
    as [Ha [_ Ht]].
  split; [|split].
  - destruct (Ha "lineno") as [d [Hd Hl]]; [simpl; auto|].
    inversion Hd; subst. exact Hl.
  - destruct (Ha "col_offset") as [d [Hd Hl]]; [simpl; auto|].
    inversion Hd; subst. exact Hl.
  - apply Ht. simpl. intros [H|[H|[H|[H|[]]]]]; discriminate H.
Defined.

(** ** What the serialiser looks at *)

(** X5: the serialiser looks at the declared names only.  Two instances
    of one class that hold the same values under the declared fields, and
    the same values or none at all against [None] under the declared
    attributes, give the same result, whatever else is set on them and in
    whatever order. *)
Theorem declared_names_only cls fs ats attrs1 attrs2 :
  (forall field, In field fs -> lookup attrs1 field = lookup attrs2 field) ->
  (forall attr, In attr ats ->
     getattr_default attrs1 attr VNone = getattr_default attrs2 attr VNone) ->
  ast_to_dict (VAST cls fs ats attrs1) = ast_to_dict (VAST cls fs ats attrs2).
Proof.
  intros Hf Ha. rewrite !ast_to_dict_node.
  rewrite (store_each_ext
             (fun field => v <- getattr cls attrs1 field ;; ast_to_dict v)
             (fun field => v <- getattr cls attrs2 field ;; ast_to_dict v)).
  2:{ intros n Hn. unfold getattr. now rewrite (Hf n Hn). }
  destruct (store_each _ fs _) as [res|e]; simpl; [|reflexivity].
  rewrite (store_each_ext
             (fun attr => ast_to_dict (getattr_default attrs1 attr VNone))
             (fun attr => ast_to_dict (getattr_default attrs2 attr VNone))).
  - reflexivity.
  - intros n Hn. now rewrite (Ha n Hn).
Qed.

Lemma declared_names_only_witness :
  ast_to_dict name_with_parent = ast_to_dict (Name "x" Load (at_pos 1 0 1))
  /\ ast_to_dict (Name "x" Load [("lineno", VNone)]) =
       ast_to_dict (Name "x" Load []).
Proof.
  split.
  - apply (declared_names_only "Name" ["id"; "ctx"] located).
    + intros field [ <- | [ <- | [] ] ]; reflexivity.
    + intros attr [ <- | [ <- | [ <- | [ <- | [] ] ] ] ]; reflexivity.
  - apply (declared_names_only "Name" ["id"; "ctx"] located).
    + intros field [ <- | [ <- | [] ] ]; reflexivity.
    + intros attr [ <- | [ <- | [ <- | [ <- | [] ] ] ] ]; reflexivity.
Defined.

(** * More on the script *)

(** X6: the script catches nothing.  When reading the file, parsing the
    text or serialising the tree raises, that exception ends the run:
    nothing has been written on standard output and the status is 1. *)
Theorem run_propagates_errors w prog path e :
  read_text w path "utf-8" = Raise e
  \/ (exists source,
        read_text w path "utf-8" = Ok source
        /\ ast_parse w source path "exec" true = Raise e)
  \/ (exists source tree,
        read_text w path "utf-8" = Ok source
        /\ ast_parse w source path "exec" true = Ok tree
        /\ ast_to_dict tree = Raise e) ->
  stdout (main w [prog; path]) = ""
  /\ uncaught (main w [prog; path]) = Some e
  /\ status (main w [prog; path]) = 1%Z.
Proof.
  unfold main, script, io_bind, argv_at, lift, json_dump. simpl.
  intros [Hr|[[source [Hr Hp]]|[source [tree [Hr [Hp Hs]]]]]].
  - rewrite Hr. auto.
  - rewrite Hr, Hp. auto.
  - rewrite Hr, Hp, Hs. auto.
Qed.

Lemma run_propagates_errors_witness :
  stdout (main stub_world ["py2ast.py"; "gone.py"]) = ""
  /\ uncaught (main stub_world ["py2ast.py"; "gone.py"]) =
       Some (OSError "gone.py")
  /\ status (main stub_world ["py2ast.py"; "gone.py"]) = 1%Z.
Proof.
  apply (run_propagates_errors stub_world "py2ast.py" "gone.py"
           (OSError "gone.py")).
  left. reflexivity.
Defined.



(** * More on the serialiser on the heap *)

(** ** Objects that were there *)

Lemma setitem_at_other res k v h x :
  x <> res -> nth_error (setitem_at res k v h) x = nth_error h x.
Proof.
  intros Hx. unfold setitem_at.
  destruct (nth_error h res) as [[ | | |es| ]|]; try reflexivity.
  apply nth_error_update_other. congruence.
Qed.

Lemma setitem_at_length res k v h :
  List.length (setitem_at res k v h) = List.length h.
Proof.
  unfold setitem_at.
  destruct (nth_error h res) as [[ | | |es| ]|]; try reflexivity.
  apply update_length.
Qed.

Lemma append_at_other res v h x :
  x <> res -> nth_error (append_at res v h) x = nth_error h x.
Proof.
  intros Hx. unfold append_at.
  destruct (nth_error h res) as [[ | |items| | ]|]; try reflexivity.
  apply nth_error_update_other. congruence.
Qed.

Lemma append_at_length res v h :
  List.length (append_at res v h) = List.length h.
Proof.
  unfold append_at.
  destruct (nth_error h res) as [[ | |items| | ]|]; try reflexivity.
  apply update_length.
Qed.

(** A loop whose calls change no object that was there changes none
    below [n], when the dictionary it fills is at [n] or above. *)
Lemma store_each_at_frame get names res n :
  (n <= res)%nat ->
  (forall name h r h', get name h = Ok (r, h') -> extends h h') ->
  forall h u h',
    (n <= List.length h)%nat ->
    store_each_at get names res h = Ok (u, h') ->
    (List.length h <= List.length h')%nat
    /\ forall x, (x < n)%nat -> nth_error h' x = nth_error h x.
Proof.
  intros Hres Hget. induction names as [|name rest IH]; intros h u h' Hn;
    simpl.
  - intros [= _ <-]. auto.
  - destruct (get name h) as [[r h1]|e] eqn:E; simpl; [|discriminate].
    intros H. destruct (Hget _ _ _ _ E) as [L1 E1].
    apply IH in H; [|rewrite setitem_at_length; lia].
    destruct H as [L2 E2]. rewrite setitem_at_length in L2.
    split; [lia|]. intros x Hx.
    rewrite E2, setitem_at_other, E1 by lia. reflexivity.
Qed.

Lemma append_each_at_frame f xs res n :
  (n <= res)%nat ->
  (forall x h r h', f x h = Ok (r, h') -> extends h h') ->
  forall h u h',
    (n <= List.length h)%nat ->
    append_each_at f xs res h = Ok (u, h') ->
    (List.length h <= List.length h')%nat
    /\ forall x, (x < n)%nat -> nth_error h' x = nth_error h x.
Proof.
  intros Hres Hf. induction xs as [|x0 rest IH]; intros h u h' Hn; simpl.
  - intros [= _ <-]. auto.
  - destruct (f x0 h) as [[r h1]|e] eqn:E; simpl; [|discriminate].
    intros H. destruct (Hf _ _ _ _ E) as [L1 E1].
    apply IH in H; [|rewrite append_at_length; lia].
    destruct H as [L2 E2]. rewrite append_at_length in L2.
    split; [lia|]. intros x Hx.
    rewrite E2, append_at_other, E1 by lia. reflexivity.
Qed.

(** On any heap, whatever the objects hold, a call that returns has
    changed no object that was there. *)
Lemma ast_to_dict_at_extends depth :
  forall l h r h', ast_to_dict_at depth l h = Ok (r, h') -> extends h h'.
Proof.
  induction depth as [|depth IH]; intros l h r h'; [discriminate|].
  cbn [ast_to_dict_at].
  destruct (nth_error h l) as [[a|items|items|es|cls fs ats attrs]|] eqn:El;
    try (intros [= _ <-]; apply extends_refl); try discriminate.
  - (* a list *)
    unfold alloc. cbn iota.
    destruct (append_each_at _ items _ _) as [[u h1]|e] eqn:E; simpl;
      [|discriminate].
    intros [= _ <-].
    apply (append_each_at_frame _ _ _ (List.length h)) in E;
      [|lia|exact IH|rewrite length_app; simpl; lia].
    destruct E as [L E]. rewrite length_app in L. simpl in L.
    split; [lia|]. intros x Hx. rewrite E by exact Hx.
    now apply nth_error_app1.
  - (* a node *)
    unfold alloc. cbn iota.
    destruct (store_each_at _ fs _ _) as [[u1 h1]|e] eqn:E1; simpl;
      [|discriminate].
    destruct (store_each_at _ ats _ h1) as [[u2 h2]|e] eqn:E2; simpl;
      [|discriminate].
    intros [= _ <-].
    apply (store_each_at_frame _ _ _ (List.length h)) in E1;
      [|rewrite length_app; simpl; lia
       |intros name hx r' hx'; destruct (lookup attrs name);
        [apply IH | discriminate]
       |rewrite !length_app; simpl; lia].
    destruct E1 as [L1 F1]. rewrite !length_app in L1. simpl in L1.
    apply (store_each_at_frame _ _ _ (List.length h)) in E2;
      [|rewrite length_app; simpl; lia| |lia].
    + destruct E2 as [L2 F2]. split; [lia|]. intros x Hx.
      rewrite F2, F1 by exact Hx.
      rewrite nth_error_app1 by (rewrite length_app; simpl; lia).
      now apply nth_error_app1.
    + intros name hx r' hx'. destruct (lookup attrs name) as [v|].
      * apply IH.
      * intros H. apply IH in H.
        eapply extends_trans; [|exact H].
        apply (extends_alloc hx (OAtom ANone)).
Qed.

Lemma extends_app h h' :
  extends h h' -> h' = h ++ skipn (List.length h) h'.
Proof.
  intros [L E]. apply nth_error_ext. intros n.
  destruct (Nat.lt_ge_cases n (List.length h)) as [Hn|Hn].
  - rewrite nth_error_app1 by exact Hn. now apply E.
  - rewrite nth_error_app2 by exact Hn. rewrite nth_error_skipn.
    f_equal. lia.
Qed.

(** X8: the serialiser changes no object, on any heap and whatever the
    objects hold, a tree or not: when a call returns, the heap is the heap
    it began with, followed by the objects it made, and the address it
    returns is the address of an object. *)
Theorem existing_objects_unchanged depth l h r h' :
  ast_to_dict_at depth l h = Ok (r, h') ->
  (exists made, h' = h ++ made)
  /\ (forall x o, nth_error h x = Some o -> nth_error h' x = Some o)
  /\ (r < List.length h')%nat.
Proof.
  intros H. pose proof (ast_to_dict_at_extends _ _ _ _ _ H) as Hext.
  split; [|split].
  - eexists. exact (extends_app _ _ Hext).
  - intros x o Hx. destruct Hext as [_ E]. rewrite E; [exact Hx|].
    exact (nth_error_valid _ _ _ Hx).
  - destruct depth as [|depth]; [discriminate|].
    cbn [ast_to_dict_at] in H.
    destruct (nth_error h l) as [[a|items|items|es|cls fs ats attrs]|] eqn:El;
      try (inversion H; subst; exact (nth_error_valid _ _ _ El));
      try discriminate.
    + unfold alloc in H. cbn iota in H.
      destruct (append_each_at _ items _ _) as [[u h1]|e] eqn:E;
        simpl in H; [|discriminate].
      inversion H; subst. clear H.
      apply (append_each_at_frame _ _ _ (List.length h)) in E;
        [|lia|apply ast_to_dict_at_extends|rewrite length_app; simpl; lia].
      destruct E as [L _]. rewrite length_app in L. simpl in L. lia.
    + unfold alloc in H. cbn iota in H.
      destruct (store_each_at _ fs _ _) as [[u1 h1]|e] eqn:E1; simpl in H;
        [|discriminate].
      destruct (store_each_at _ ats _ h1) as [[u2 h2]|e] eqn:E2;
        simpl in H; [|discriminate].
      inversion H; subst. clear H.
      apply (store_each_at_frame _ _ _ (List.length h)) in E1;
        [|rewrite length_app; simpl; lia
         |intros name hx r' hx'; destruct (lookup attrs name);
          [apply ast_to_dict_at_extends | discriminate]
         |rewrite !length_app; simpl; lia].
      destruct E1 as [L1 _]. rewrite !length_app in L1. simpl in L1.
      apply (store_each_at_frame _ _ _ (List.length h)) in E2;
        [|rewrite length_app; simpl; lia| |lia].
      * destruct E2 as [L2 _]. rewrite length_app. simpl. lia.
      * intros name hx r' hx'. destruct (lookup attrs name) as [v|].
        -- apply ast_to_dict_at_extends.
        -- intros H. apply ast_to_dict_at_extends in H.
           eapply extends_trans; [|exact H].
           apply (extends_alloc hx (OAtom ANone)).
Qed.

Lemma existing_objects_unchanged_witness :
  exists r h',
    ast_to_dict_at 4 3 shared_heap = Ok (r, h')
    /\ (exists made, h' = shared_heap ++ made)
    /\ (forall x o, nth_error shared_heap x = Some o ->
                    nth_error h' x = Some o)
    /\ (r < List.length h')%nat.
Proof.
  destruct (ast_to_dict_at 4 3 shared_heap) as [[r h']|e] eqn:E;
    [|discriminate E].
  exists r, h'. split; [reflexivity|].
  apply (existing_objects_unchanged 4 3 shared_heap r h' E).
Defined.

(** ** The object returned *)

Lemma append_each_at_result f xs res :
  (forall x h r h', f x h = Ok (r, h') -> extends h h') ->
  forall h u h' acc,
    nth_error h res = Some (OList acc) ->
    append_each_at f xs res h = Ok (u, h') ->
    exists rs, nth_error h' res = Some (OList (acc ++ rs))
               /\ List.length rs = List.length xs.
Proof.
  intros Hf. induction xs as [|x0 rest IH]; intros h u h' acc Hres; simpl.
  - intros [= _ <-]. exists []. now rewrite app_nil_r.
  - destruct (f x0 h) as [[r h1]|e] eqn:E; simpl; [|discriminate].
    intros H. destruct (Hf _ _ _ _ E) as [L1 E1].
    pose proof (nth_error_valid _ _ _ Hres) as Hv.
    assert (nth_error (append_at res r h1) res = Some (OList (acc ++ [r])))
      as Hres'.
    { unfold append_at. rewrite E1, Hres by exact Hv.
      apply nth_error_update_same. lia. }
    destruct (IH _ _ _ _ Hres' H) as [rs [Hrs Hlen]].
    exists (r :: rs). rewrite <- app_assoc in Hrs. simpl in *.
    split; [exact Hrs | now rewrite Hlen].
Qed.

Lemma store_each_at_result get names res k0 :
  (forall name h r h', get name h = Ok (r, h') -> extends h h') ->
  forall h u h' es,
    nth_error h res = Some (ODict es) ->
    hd_error (map fst es) = Some k0 ->
    store_each_at get names res h = Ok (u, h') ->
    exists es', nth_error h' res = Some (ODict es')
                /\ hd_error (map fst es') = Some k0.
Proof.
  intros Hget. induction names as [|name rest IH];
    intros h u h' es Hres Hhd; simpl.
  - intros [= _ <-]. now exists es.
  - destruct (get name h) as [[r h1]|e] eqn:E; simpl; [|discriminate].
    intros H. destruct (Hget _ _ _ _ E) as [L1 E1].
    pose proof (nth_error_valid _ _ _ Hres) as Hv.
    assert (nth_error (setitem_at res name r h1) res =
            Some (ODict (setitem es name r))) as Hres'.
    { unfold setitem_at. rewrite E1, Hres by exact Hv.
      apply nth_error_update_same. lia. }
    exact (IH _ _ _ _ Hres' (setitem_first_key _ _ _ _ Hhd) H).
Qed.

(** X9: what a call returns depends on the kind of its argument alone.
    A node gives a dictionary that was not there before, with [_type] as
    its first key; a list gives a list that was not there before, of the
    same length; anything else gives the argument itself, the same
    object, and a heap in which nothing was made. *)
Theorem returned_object depth l h r h' :
  ast_to_dict_at depth l h = Ok (r, h') ->
  match nth_error h l with
  | Some (OAST _ _ _ _) =>
      (List.length h <= r)%nat
      /\ exists es, nth_error h' r = Some (ODict es)
                    /\ hd_error (map fst es) = Some "_type"
  | Some (OList items) =>
      (List.length h <= r)%nat
      /\ exists rs, nth_error h' r = Some (OList rs)
                    /\ List.length rs = List.length items
  | Some _ => r = l /\ h' = h
  | None => False
  end.
Proof.
  destruct depth as [|depth]; [discriminate|]. cbn [ast_to_dict_at].
  destruct (nth_error h l) as [[a|items|items|es|cls fs ats attrs]|] eqn:El;
    try (intros [= <- <-]; now split); try discriminate.
  - unfold alloc. cbn iota.
    destruct (append_each_at _ items _ _) as [[u h1]|e] eqn:E; simpl;
      [|discriminate].
    intros [= <- <-]. split; [lia|].
    apply (append_each_at_result _ _ _ (ast_to_dict_at_extends depth)
             _ _ _ []) in E.
    + exact E.
    + apply (nth_error_alloc h (OList [])).
  - unfold alloc. cbn iota.
    destruct (store_each_at _ fs _ _) as [[u1 h1]|e] eqn:E1; simpl;
      [|discriminate].
    destruct (store_each_at _ ats _ h1) as [[u2 h2]|e] eqn:E2; simpl;
      [|discriminate].
    intros [= <- <-]. split; [rewrite length_app; simpl; lia|].
    eapply (store_each_at_result _ _ _ "_type") in E1.
    + destruct E1 as [es1 [Hes1 Hhd1]].
      eapply (store_each_at_result _ _ _ "_type") in E2;
        [exact E2| |exact Hes1|exact Hhd1].
      intros name hx r' hx'. destruct (lookup attrs name) as [v|].
      * apply ast_to_dict_at_extends.
      * intros H. apply ast_to_dict_at_extends in H.
        eapply extends_trans; [|exact H].
        apply (extends_alloc hx (OAtom ANone)).
    + intros name hx r' hx'. destruct (lookup attrs name);
        [apply ast_to_dict_at_extends | discriminate].
    + apply (nth_error_alloc (h ++ [OAtom (AStr cls)])
               (ODict [("_type", List.length h)])).
    + reflexivity.
Qed.

Lemma returned_object_witness :
  exists r h',
    ast_to_dict_at 4 3 shared_heap = Ok (r, h')
    /\ (List.length shared_heap <= r)%nat
    /\ exists rs, nth_error h' r = Some (OList rs)
                  /\ List.length rs = 2%nat.
Proof.
  destruct (ast_to_dict_at 4 3 shared_heap) as [[r h']|e] eqn:E;
    [|discriminate E].
  exists r, h'. split; [reflexivity|].
  apply (returned_object 4 3 shared_heap r h' E).
Defined.

(** ** Lists that hold themselves *)

(** X10: the serialiser does not look for cycles.  On a list that holds
    itself among its items no call returns, whatever the depth allowed:
    every call ends in an exception. *)
Theorem list_holding_itself_raises depth :
  forall h l items,
    nth_error h l = Some (OList items) ->
    In l items ->
    exists e, ast_to_dict_at depth l h = Raise e.
Proof.
  induction depth as [|depth IH]; intros h l items Hl Hin.
  - now exists RecursionError.
  - cbn [ast_to_dict_at]. rewrite Hl. unfold alloc. cbn iota.
    pose proof (nth_error_valid _ _ _ Hl) as Hv.
    assert (forall xs hc,
              In l xs ->
              nth_error hc l = Some (OList items) ->
              exists e, append_each_at (ast_to_dict_at depth) xs
                          (List.length h) hc = Raise e) as Hloop.
    { induction xs as [|x rest IHxs]; intros hc Hx Hc; [destruct Hx|].
      simpl. destruct (ast_to_dict_at depth x hc) as [[y hc1]|e] eqn:E;
        simpl; [|now exists e].
      destruct Hx as [->|Hx].
      - destruct (IH hc l items Hc Hin) as [e He]. congruence.
      - apply IHxs; [exact Hx|].
        rewrite append_at_other by lia.
        destruct (ast_to_dict_at_extends _ _ _ _ _ E) as [_ E1].
        rewrite E1; [exact Hc | exact (nth_error_valid _ _ _ Hc)]. }
    destruct (Hloop items (h ++ [OList []]) Hin) as [e He].
    { now rewrite nth_error_app1. }
    exists e. now rewrite He.
Qed.

Lemma list_holding_itself_raises_witness :
  exists e, ast_to_dict_at 1000 0 looping_heap = Raise e.
Proof.
  apply (list_holding_itself_raises 1000 looping_heap 0%nat [0%nat]).
  - reflexivity.
  - now left.
Defined.

(** ** The depth allowed *)

Lemma store_each_at_more get1 get2 names res :
  (forall name h x, get1 name h = Ok x -> get2 name h = Ok x) ->
  forall h x,
    store_each_at get1 names res h = Ok x ->
    store_each_at get2 names res h = Ok x.
Proof.
  intros Hg. induction names as [|name rest IH]; intros h x; simpl;
    [auto|].
  destruct (get1 name h) as [[r h1]|e] eqn:E; simpl; [|discriminate].
  rewrite (Hg _ _ _ E). simpl. apply IH.
Qed.

Lemma append_each_at_more f1 f2 xs res :
  (forall y h x, f1 y h = Ok x -> f2 y h = Ok x) ->
  forall h x,
    append_each_at f1 xs res h = Ok x ->
    append_each_at f2 xs res h = Ok x.
Proof.
  intros Hf. induction xs as [|y rest IH]; intros h x; simpl; [auto|].
  destruct (f1 y h) as [[r h1]|e] eqn:E; simpl; [|discriminate].
  rewrite (Hf _ _ _ E). simpl. apply IH.
Qed.

Lemma more_depth_step d1 d2 :
  (forall l h x, ast_to_dict_at d1 l h = Ok x -> ast_to_dict_at d2 l h = Ok x) ->
  forall l h x,
    ast_to_dict_at (S d1) l h = Ok x -> ast_to_dict_at (S d2) l h = Ok x.
Proof.
  intros IH l h x. cbn [ast_to_dict_at].
  destruct (nth_error h l) as [[a|items|items|es|cls fs ats attrs]|];
    try exact (fun H => H).
  - unfold alloc. cbn iota.
    destruct (append_each_at (ast_to_dict_at d1) items _ _)
      as [[u h1]|e] eqn:E; simpl; [|discriminate].
    apply (append_each_at_more _ (ast_to_dict_at d2)) in E; [|exact IH].
    rewrite E. exact (fun H => H).
  - unfold alloc. cbn iota.
    destruct (store_each_at _ fs _ _) as [[u1 h1]|e] eqn:E1; simpl;
      [|discriminate].
    destruct (store_each_at _ ats _ h1) as [[u2 h2]|e] eqn:E2; simpl;
      [|discriminate].
    eapply store_each_at_more in E1.
    + rewrite E1. simpl. eapply store_each_at_more in E2.
      * rewrite E2. exact (fun H => H).
      * intros name hx y. simpl. destruct (lookup attrs name) as [v|];
          apply IH.
    + intros name hx y. simpl. destruct (lookup attrs name) as [v|];
        [apply IH | discriminate].
Qed.

(** X11: allowing more depth changes no result.  What a call returns with
    some depth allowed it returns with any greater depth, the same address
    and the same heap. *)
Theorem more_depth_same_result d :
  forall d' l h x,
    (d <= d')%nat ->
    ast_to_dict_at d l h = Ok x ->
    ast_to_dict_at d' l h = Ok x.
Proof.
  induction d as [|d IH]; intros d' l h x Hle; [discriminate|].
  destruct d' as [|d']; [lia|].
  apply more_depth_step. intros l0 h0 x0. apply IH. lia.
Qed.

Lemma more_depth_same_result_witness :
  exists x, ast_to_dict_at 4 3 shared_heap = Ok x
            /\ ast_to_dict_at 1000 3 shared_heap = Ok x.
Proof.
  destruct (ast_to_dict_at 4 3 shared_heap) as [x|e] eqn:E;
    [|discriminate E].
  exists x. split; [reflexivity|].
  apply (more_depth_same_result 4 1000 3 shared_heap x); [lia | exact E].
Defined.
